(** * Snake (src/snake/snake.c): a shallow embedding and its properties

    The program keeps the whole game in global variables and updates them
    in place from [Setup], [Input], [Logic] and [PlaceFood]; [Draw] reads
    them.  The embedding keeps that shape: one record [state] holds the
    globals, every C function becomes a function on [state], and the two
    sources of outside input are made explicit:

    - [rand()] reads from a generator [rng]: the sequence of numbers the C
      library will hand out after the last [srand], and how many of them
      have been consumed;
    - [getch()] reads from the list of key codes pending in the terminal.

    C [int]s are modelled by [Z].  The two arrays [tailX] and [tailY] have
    100 elements each; an access outside [0, 100) is undefined behaviour in
    C and is modelled by the result [None]. *)

From Stdlib Require Import ZArith Lia Bool Ascii String.
From Stdlib Require DecimalString.
From stdpp Require Import base option list strings.

#[local] Open Scope Z_scope.

(** ** Game configuration and state *)

Definition WIDTH : Z := 40.
Definition HEIGHT : Z := 20.

(** Declared size of [tailX] and [tailY]. *)
Definition TAIL_CAP : Z := 100.

Inductive eDirection : Set := STOP | LEFT | RIGHT | UP | DOWN.

#[global] Instance eDirection_eq_dec : EqDecision eDirection.
Proof. solve_decision. Defined.

Record state : Type := mkState {
  gameOver : Z;
  score : Z;
  headX : Z;
  headY : Z;
  foodX : Z;
  foodY : Z;
  tailX : list Z;
  tailY : list Z;
  nTail : Z;
  dir : eDirection
}.

Definition set_gameOver (v : Z) (s : state) : state :=
  mkState v (score s) (headX s) (headY s) (foodX s) (foodY s)
          (tailX s) (tailY s) (nTail s) (dir s).
Definition set_score (v : Z) (s : state) : state :=
  mkState (gameOver s) v (headX s) (headY s) (foodX s) (foodY s)
          (tailX s) (tailY s) (nTail s) (dir s).
Definition set_headX (v : Z) (s : state) : state :=
  mkState (gameOver s) (score s) v (headY s) (foodX s) (foodY s)
          (tailX s) (tailY s) (nTail s) (dir s).
Definition set_headY (v : Z) (s : state) : state :=
  mkState (gameOver s) (score s) (headX s) v (foodX s) (foodY s)
          (tailX s) (tailY s) (nTail s) (dir s).
Definition set_foodX (v : Z) (s : state) : state :=
  mkState (gameOver s) (score s) (headX s) (headY s) v (foodY s)
          (tailX s) (tailY s) (nTail s) (dir s).
Definition set_foodY (v : Z) (s : state) : state :=
  mkState (gameOver s) (score s) (headX s) (headY s) (foodX s) v
          (tailX s) (tailY s) (nTail s) (dir s).
Definition set_tail (tx ty : list Z) (s : state) : state :=
  mkState (gameOver s) (score s) (headX s) (headY s) (foodX s) (foodY s)
          tx ty (nTail s) (dir s).
Definition set_nTail (v : Z) (s : state) : state :=
  mkState (gameOver s) (score s) (headX s) (headY s) (foodX s) (foodY s)
          (tailX s) (tailY s) v (dir s).
Definition set_dir (v : eDirection) (s : state) : state :=
  mkState (gameOver s) (score s) (headX s) (headY s) (foodX s) (foodY s)
          (tailX s) (tailY s) (nTail s) v.

(** The globals as the C runtime leaves them before [main] runs: objects
    with static storage are zero-initialised, and [STOP = 0]. *)
Definition initial_state : state :=
  mkState 0 0 0 0 0 0
          (replicate (Z.to_nat TAIL_CAP) 0) (replicate (Z.to_nat TAIL_CAP) 0)
          0 STOP.

(** ** Array accesses *)

Definition in_bounds (i : Z) : bool := (0 <=? i) && (i <? TAIL_CAP).

(** [a[i]] as an rvalue. *)
Definition aget (a : list Z) (i : Z) : option Z :=
  if in_bounds i then a !! Z.to_nat i else None.

(** [a[i] = v]. *)
Definition aset (a : list Z) (i : Z) (v : Z) : option (list Z) :=
  if in_bounds i then Some (<[Z.to_nat i := v]> a) else None.

(** ** The random number generator *)

(** [gen g n] is the [n]-th number the C library hands out after the last
    [srand]; [pos g] counts the calls of [rand] since then.  The library
    promises [0 <= rand() <= RAND_MAX]; the properties below hold for any
    numbers, and the example seeds stay within that range. *)
Record rng : Type := mkRng { gen : nat -> Z; pos : nat }.

Definition rand (g : rng) : Z * rng :=
  (gen g (pos g), mkRng (gen g) (S (pos g))).

(** [srand] restarts the generator on the sequence its seed selects; the
    seed is represented by that sequence. *)
Definition srand (seed : nat -> Z) : rng := mkRng seed 0.

(** ** isPositionOnSnake *)

(** [tx[i] == x && ty[i] == y]: the right operand is evaluated only when
    the left one holds. *)
Definition slot_is (tx ty : list Z) (i : Z) (x y : Z) : option bool :=
  vx ← aget tx i;
  if vx =? x then vy ← aget ty i; Some (vy =? y) else Some false.

(** [for (i = i0; i < i0 + n; i++) if (tx[i] == x && ty[i] == y) return true;]
    followed by [return false].  The same loop is written twice in the
    source: in [isPositionOnSnake] and as the self-collision check of
    [Logic]. *)
Fixpoint tail_scan (n : nat) (i : Z) (tx ty : list Z) (x y : Z) : option bool :=
  match n with
  | O => Some false
  | S n' =>
      hit ← slot_is tx ty i x y;
      if hit : bool then Some true
      else tail_scan n' (i + 1) tx ty x y
  end.

(** [None]: the loop reads [tailX[i]] with [i] out of bounds. *)
Definition isPositionOnSnake (s : state) (x y : Z) : option bool :=
  if (headX s =? x) && (headY s =? y) then Some true
  else tail_scan (Z.to_nat (nTail s)) 0 (tailX s) (tailY s) x y.

(** ** PlaceFood *)

(** One pass of the [do ... while] body per unit of [fuel]; the third
    component of the result is the final value of the local [attempts]. *)
Fixpoint PlaceFood_loop (fuel : nat) (attempts : Z) (s : state) (g : rng)
  : option (state * rng * Z) :=
  match fuel with
  | O => None
  | S fuel' =>
      let '(r1, g1) := rand g in
      let s1 := set_foodX (Z.rem r1 WIDTH + 1) s in
      let '(r2, g2) := rand g1 in
      let s2 := set_foodY (Z.rem r2 HEIGHT + 1) s1 in
      let attempts' := attempts + 1 in
      if attempts' >? WIDTH * HEIGHT then Some (s2, g2, attempts')
      else
        b ← isPositionOnSnake s2 (foodX s2) (foodY s2);
        if b : bool then PlaceFood_loop fuel' attempts' s2 g2
        else Some (s2, g2, attempts')
  end.

(** The loop leaves by [break] once [attempts] exceeds [WIDTH * HEIGHT], so
    this many passes are always enough (lemma [PlaceFood_loop_fuel]). *)
Definition PlaceFood_fuel : nat := Z.to_nat (WIDTH * HEIGHT + 1).

Definition PlaceFood_attempts (s : state) (g : rng) : option (state * rng * Z) :=
  PlaceFood_loop PlaceFood_fuel 0 s g.

Definition PlaceFood (s : state) (g : rng) : option (state * rng) :=
  r ← PlaceFood_attempts s g; Some (r.1).

(** ** Setup *)

(** [Setup] assigns every global except the two arrays. *)
Definition Setup (seed : nat -> Z) (s : state) : option (state * rng) :=
  let g := srand seed in
  let s := set_gameOver 0 s in
  let s := set_dir STOP s in
  let s := set_headX (Z.quot WIDTH 2) s in
  let s := set_headY (Z.quot HEIGHT 2) s in
  let s := set_score 0 s in
  let s := set_nTail 0 s in
  PlaceFood s g.

(** ** Input *)

(** Key codes of <ncurses.h>. *)
Definition ERR : Z := -1.
Definition KEY_DOWN : Z := 258.   (* 0402 *)
Definition KEY_UP : Z := 259.     (* 0403 *)
Definition KEY_LEFT : Z := 260.   (* 0404 *)
Definition KEY_RIGHT : Z := 261.  (* 0405 *)

(** A character constant. *)
Definition chr (c : ascii) : Z := Z.of_N (N_of_ascii c).

(** The [switch] of [Input], for one key. *)
Definition Input_key (ch : Z) (s : state) : state :=
  if (ch =? chr "a") || (ch =? chr "A") || (ch =? KEY_LEFT) then
    if decide (dir s <> RIGHT) then set_dir LEFT s else s
  else if (ch =? chr "d") || (ch =? chr "D") || (ch =? KEY_RIGHT) then
    if decide (dir s <> LEFT) then set_dir RIGHT s else s
  else if (ch =? chr "w") || (ch =? chr "W") || (ch =? KEY_UP) then
    if decide (dir s <> DOWN) then set_dir UP s else s
  else if (ch =? chr "s") || (ch =? chr "S") || (ch =? KEY_DOWN) then
    if decide (dir s <> UP) then set_dir DOWN s else s
  else if (ch =? chr "q") || (ch =? chr "Q") then
    set_gameOver 1 s
  else s.

(** [getch()] in no-delay mode: the next pending key, or [ERR]. *)
Definition getch (pending : list Z) : Z * list Z :=
  match pending with
  | [] => (ERR, [])
  | k :: rest => (k, rest)
  end.

(** [while ((ch = getch()) != ERR) switch (ch) ...]; returns the keys left
    pending as well. *)
Fixpoint Input (pending : list Z) (s : state) : state * list Z :=
  match pending with
  | [] => (s, [])
  | k :: rest =>
      if k =? ERR then (s, rest) else Input rest (Input_key k s)
  end.

(** ** Logic *)

(** "Calculate new head position", "Handle wall wrapping" and "Double-check
    bounds": the values of [newHeadX] and [newHeadY]. *)
Definition newHead (s : state) : Z * Z :=
  let newHeadX := headX s in
  let newHeadY := headY s in
  let '(newHeadX, newHeadY) :=
    match dir s with
    | LEFT => (newHeadX - 1, newHeadY)
    | RIGHT => (newHeadX + 1, newHeadY)
    | UP => (newHeadX, newHeadY - 1)
    | DOWN => (newHeadX, newHeadY + 1)
    | STOP => (newHeadX, newHeadY)
    end in
  let newHeadX :=
    if newHeadX >? WIDTH then 1
    else if newHeadX <? 1 then WIDTH else newHeadX in
  let newHeadY :=
    if newHeadY >? HEIGHT then 1
    else if newHeadY <? 1 then HEIGHT else newHeadY in
  let newHeadX := if newHeadX <? 1 then 1 else newHeadX in
  let newHeadX := if newHeadX >? WIDTH then WIDTH else newHeadX in
  let newHeadY := if newHeadY <? 1 then 1 else newHeadY in
  let newHeadY := if newHeadY >? HEIGHT then HEIGHT else newHeadY in
  (newHeadX, newHeadY).

(** [for (i = n; i > 0; i--) { tx[i] = tx[i-1]; ty[i] = ty[i-1]; }] *)
Fixpoint shift_loop (n : nat) (tx ty : list Z) : option (list Z * list Z) :=
  match n with
  | O => Some (tx, ty)
  | S n' =>
      let i := Z.of_nat n in
      vx ← aget tx (i - 1);
      tx' ← aset tx i vx;
      vy ← aget ty (i - 1);
      ty' ← aset ty i vy;
      shift_loop n' tx' ty'
  end.

(** "Update tail position": the [if (nTail > 0)] block. *)
Definition shift_tail (s : state) : option state :=
  if nTail s >? 0 then
    t ← shift_loop (Z.to_nat (nTail s - 1)) (tailX s) (tailY s);
    tx ← aset t.1 0 (headX s);
    ty ← aset t.2 0 (headY s);
    Some (set_tail tx ty s)
  else Some s.

(** The update up to and including "Move head to new position". *)
Definition advance (s : state) : option state :=
  let '(newHeadX, newHeadY) := newHead s in
  s1 ← shift_tail s;
  Some (set_headY newHeadY (set_headX newHeadX s1)).

(** "Check for self-collision": the value of the loop's test, [Some true]
    when some [tailX[i] == headX && tailY[i] == headY]. *)
Definition selfCollides (s : state) : option bool :=
  tail_scan (Z.to_nat (nTail s)) 0 (tailX s) (tailY s) (headX s) (headY s).

(** [Logic]; [PlaceFood] is its only use of the generator. *)
Definition Logic (s : state) (g : rng) : option (state * rng) :=
  if decide (dir s = STOP) then Some (s, g)
  else
    let '(newHeadX, newHeadY) := newHead s in
    let willEatFood := (newHeadX =? foodX s) && (newHeadY =? foodY s) in
    s1 ← advance s;
    hit ← selfCollides s1;
    if hit : bool then Some (set_gameOver 1 s1, g)
    else if willEatFood then
      let s2 := set_score (score s1 + 10) s1 in
      let s3 := set_nTail (nTail s2 + 1) s2 in
      PlaceFood s3 g
    else Some (s1, g).

(** ** Draw *)

(** One call [mvprintw(row, col, fmt, args...)]; the screen output of a
    function is the list of its calls, in program order. *)
Record call : Type := mvprintw { row : Z; col : Z; fmt : string; args : list Z }.

#[global] Instance call_eq_dec : EqDecision call.
Proof. solve_decision. Defined.

(** The three loops of [ClearGameArea]. *)
Definition ClearGameArea : list call :=
  (i ← seqZ 1 HEIGHT; j ← seqZ 1 WIDTH; [mvprintw i j " " []])
  ++ (i ← seqZ 0 (WIDTH + 2);
      [mvprintw 0 i "#" []; mvprintw (HEIGHT + 1) i "#" []])
  ++ (i ← seqZ 0 (HEIGHT + 2);
      [mvprintw i 0 "#" []; mvprintw i (WIDTH + 1) "#" []]).

(** [tx[i] >= 1 && tx[i] <= WIDTH && ty[i] >= 1 && ty[i] <= HEIGHT], with
    the short-circuit evaluation of [&&]. *)
Definition slot_on_board (tx ty : list Z) (i : Z) : option bool :=
  vx ← aget tx i;
  if vx >=? 1 then
    vx ← aget tx i;
    if vx <=? WIDTH then
      vy ← aget ty i;
      if vy >=? 1 then vy ← aget ty i; Some (vy <=? HEIGHT) else Some false
    else Some false
  else Some false.

(** "Draw the snake's tail with bounds checking". *)
Fixpoint draw_tail (n : nat) (i : Z) (tx ty : list Z) : option (list call) :=
  match n with
  | O => Some []
  | S n' =>
      shown ← slot_on_board tx ty i;
      here ← (if shown : bool then
                vy ← aget ty i; vx ← aget tx i; Some [mvprintw vy vx "o" []]
              else Some []);
      rest ← draw_tail n' (i + 1) tx ty;
      Some (here ++ rest)
  end.

(** The calls of [Draw], those of [ClearGameArea] first ([refresh] prints
    nothing of its own). *)
Definition Draw (s : state) : option (list call) :=
  tl ← draw_tail (Z.to_nat (nTail s)) 0 (tailX s) (tailY s);
  Some (ClearGameArea
        ++ [mvprintw (foodY s) (foodX s) "F" []]
        ++ tl
        ++ (if (headX s >=? 1) && (headX s <=? WIDTH)
               && (headY s >=? 1) && (headY s <=? HEIGHT)
            then [mvprintw (headY s) (headX s) "O" []] else [])
        ++ [mvprintw (HEIGHT + 3) 0 "Score: %d   " [score s]]).

(** ** The game loop of main *)

(** One pass of [while (!gameOver)]: [Input()], then, when the tick
    interval has elapsed ([due]), [Logic()] followed by [Draw()].  The
    frame drawn is the second component. *)
Definition loop_pass (pending : list Z) (due : bool) (s : state) (g : rng)
  : option (state * rng * list call) :=
  let s1 := (Input pending s).1 in
  if due then
    r ← Logic s1 g;
    frame ← Draw r.1;
    Some (r, frame)
  else Some (s1, g, []).

(** What [main] does to the globals after the first [Setup]: passes of the
    inner loop while [gameOver] is 0 and, once it is not, [Setup] again
    when the player chooses to restart. *)
Inductive event : Type :=
| Pass (pending : list Z) (due : bool)
| Restart (seed : nat -> Z).

(** [None]: the event cannot happen in this state, or an array access of
    the pass is out of bounds. *)
Definition step (e : event) (s : state) (g : rng) : option (state * rng) :=
  match e with
  | Pass pending due =>
      if gameOver s =? 0 then r ← loop_pass pending due s g; Some (r.1)
      else None
  | Restart seed =>
      if gameOver s =? 0 then None else Setup seed s
  end.

Fixpoint run (es : list event) (s : state) (g : rng) : option (state * rng) :=
  match es with
  | [] => Some (s, g)
  | e :: es' => r ← step e s g; run es' r.1 r.2
  end.

(** The program from its start: [Setup] on the initial globals, then the
    events in turn. *)
Definition play (seed : nat -> Z) (es : list event) : option (state * rng) :=
  r ← Setup seed initial_state; run es r.1 r.2.

(** The states of the globals, and of the generator, that [main] can
    reach. *)
Inductive reachable : state -> rng -> Prop :=
| reach_Setup seed s g :
    Setup seed initial_state = Some (s, g) -> reachable s g
| reach_step e s g s' g' :
    reachable s g -> step e s g = Some (s', g') -> reachable s' g'.

(** The states of the first playthrough: no [Restart] yet. *)
Inductive reachable1 : state -> rng -> Prop :=
| reach1_Setup seed s g :
    Setup seed initial_state = Some (s, g) -> reachable1 s g
| reach1_pass pending due s g s' g' :
    reachable1 s g -> step (Pass pending due) s g = Some (s', g') ->
    reachable1 s' g'.

(** ** DrawBoard *)

(** The calls of [DrawBoard] after its [clear()], which empties the
    screen. *)
Definition DrawBoard : list call :=
  (i ← seqZ 0 (WIDTH + 2);
   [mvprintw 0 i "#" []; mvprintw (HEIGHT + 1) i "#" []])
  ++ (i ← seqZ 0 (HEIGHT + 2);
      [mvprintw i 0 "#" []; mvprintw i (WIDTH + 1) "#" []])
  ++ [mvprintw (HEIGHT + 3) 0 "Score: 0   " [];
      mvprintw (HEIGHT + 4) 0 "Use WASD or Arrow keys. Press 'q' to quit." []].

(** ** main *)

Definition GAME_SPEED : Z := 100000.

Record timeval : Type := mkTimeval { tv_sec : Z; tv_usec : Z }.

(** [(current_time.tv_sec - last_update.tv_sec) * 1000000L +
    (current_time.tv_usec - last_update.tv_usec)] *)
Definition elapsed_time (current_time last_update : timeval) : Z :=
  (tv_sec current_time - tv_sec last_update) * 1000000
  + (tv_usec current_time - tv_usec last_update).

(** What a run of the program on given inputs comes to: it ends with a
    result, it has used up the inputs given and waits for more, or it has
    accessed an array out of bounds. *)
Inductive outcome (A : Type) : Type :=
| Finished (a : A)
| Waiting
| Undefined.
Arguments Finished {A} a.
Arguments Waiting {A}.
Arguments Undefined {A}.

(** [while (!gameOver)]: each pass of the loop takes the keys pending at
    its [Input()] and the time its [gettimeofday] reads.  The result has
    the frames drawn, the first first, and the last value of
    [last_update]. *)
Fixpoint game_loop (passes : list (list Z * timeval)) (last_update : timeval)
    (s : state) (g : rng) (frames : list (list call))
  : outcome (state * rng * list (list call) * timeval) :=
  if gameOver s =? 0 then
    match passes with
    | [] => Waiting
    | (pending, current_time) :: rest =>
        let s1 := (Input pending s).1 in
        if elapsed_time current_time last_update >=? GAME_SPEED then
          match Logic s1 g with
          | None => Undefined
          | Some (s2, g2) =>
              match Draw s2 with
              | None => Undefined
              | Some frame => game_loop rest current_time s2 g2 (frames ++ [frame])
              end
          end
        else game_loop rest last_update s1 g frames
    end
  else Finished (s, g, frames, last_update).

Definition restart_text : string := "Press 'r' to Restart or 'q' to Quit".

(** The "Game Over Screen"; the second call is
    [mvprintw(HEIGHT / 2 + 2, (WIDTH + 2 - text_len) / 2, "%s", restart_text)],
    which prints [restart_text]. *)
Definition GameOverScreen : list call :=
  let text_len := Z.of_nat (String.length restart_text) in
  [mvprintw (Z.quot HEIGHT 2) (Z.quot WIDTH 2 - 4) "GAME OVER" [];
   mvprintw (Z.quot HEIGHT 2 + 2) (Z.quot (WIDTH + 2 - text_len) 2)
            restart_text []].

(** [do { choice = getch(); } while (choice != 'r' && choice != 'R' &&
    choice != 'q' && choice != 'Q');] with the keys typed at the prompt:
    the first of them that ends the loop, if any does. *)
Fixpoint prompt_choice (typed : list Z) : option Z :=
  match typed with
  | [] => None
  | choice :: rest =>
      if negb (choice =? chr "r") && negb (choice =? chr "R")
         && negb (choice =? chr "q") && negb (choice =? chr "Q")
      then prompt_choice rest
      else Some choice
  end.






(** * Vocabulary of the properties *)

(** ** States and cells *)

(** Both arrays have their declared size. *)
Definition wf (s : state) : Prop :=
  length (tailX s) = Z.to_nat TAIL_CAP /\ length (tailY s) = Z.to_nat TAIL_CAP.

(** Segment [j] of the counted tail lies on cell [(x, y)]. *)
Definition segment_at (s : state) (j : Z) (x y : Z) : Prop :=
  tailX s !! Z.to_nat j = Some x /\ tailY s !! Z.to_nat j = Some y.

(** Some counted tail segment lies on cell [(x, y)]. *)
Definition on_tail (s : state) (x y : Z) : Prop :=
  exists j, 0 <= j < nTail s /\ segment_at s j x y.

(** The cell is the head or a counted tail segment. *)
Definition occupied (s : state) (p : Z * Z) : Prop :=
  (headX s = p.1 /\ headY s = p.2) \/ on_tail s p.1 p.2.

(** The head is on one of the [WIDTH * HEIGHT] cells of the board. *)
Definition head_on_board (s : state) : Prop :=
  1 <= headX s <= WIDTH /\ 1 <= headY s <= HEIGHT.

(** Every uncounted slot still holds its initial 0. *)
Definition fresh_slots (s : state) : Prop :=
  forall j : nat, nTail s <= Z.of_nat j -> (j < Z.to_nat TAIL_CAP)%nat ->
    tailX s !! j = Some 0 /\ tailY s !! j = Some 0.

(** What holds of the globals throughout the first playthrough. *)
Definition first_inv (s : state) : Prop :=
  wf s /\ head_on_board s /\ fresh_slots s /\
  (gameOver s = 0 -> ~ on_tail s (headX s) (headY s)).

(** The two arrays hold the same values in the slots below [n]. *)
Definition agree_below (n : Z) (a b : list Z) : Prop :=
  forall j : nat, Z.of_nat j < n -> a !! j = b !! j.

(** Same globals, whatever the arrays hold. *)
Definition same_but_tail (s t : state) : Prop :=
  t = set_tail (tailX t) (tailY t) s.

(** What [advance] and [Logic] leave alone. *)
Definition same_game (s s' : state) : Prop :=
  gameOver s' = gameOver s /\ score s' = score s /\
  foodX s' = foodX s /\ foodY s' = foodY s /\
  nTail s' = nTail s /\ dir s' = dir s.

(** Keys change [dir] and [gameOver] only. *)
Definition same_snake (s s' : state) : Prop :=
  score s' = score s /\ headX s' = headX s /\ headY s' = headY s /\
  foodX s' = foodX s /\ foodY s' = foodY s /\
  tailX s' = tailX s /\ tailY s' = tailY s /\ nTail s' = nTail s.

(** The largest [int]. *)
Definition INT_MAX : Z := 2147483647.

(** Bounds on the globals that every reachable state meets. *)
Definition small (s : state) : Prop :=
  (gameOver s = 0 \/ gameOver s = 1) /\
  0 <= nTail s <= TAIL_CAP + 1 /\
  head_on_board s /\
  (- WIDTH < foodX s <= WIDTH /\ - HEIGHT < foodY s <= HEIGHT) /\
  Forall (fun v => 0 <= v <= WIDTH) (tailX s) /\
  Forall (fun v => 0 <= v <= HEIGHT) (tailY s).

(** ** Sampling *)

(** The [k]-th position sampled from generator [g], counting from 0. *)
Definition sample (g : rng) (k : nat) : Z * Z :=
  (Z.rem (gen g (pos g + 2 * k)%nat) WIDTH + 1,
   Z.rem (gen g (pos g + 2 * k + 1)%nat) HEIGHT + 1).

(** [foodX = p.1; foodY = p.2]. *)
Definition set_food (p : Z * Z) (s : state) : state :=
  set_foodY p.2 (set_foodX p.1 s).

(** Generator [g] after [n] calls of [rand]. *)
Definition skip (n : nat) (g : rng) : rng := mkRng (gen g) (pos g + n)%nat.

(** ** Moving *)

(** The wraparound rule, as the design states it: a coordinate above [hi]
    becomes [lo], one below [lo] becomes [hi], any other is kept. *)
Definition wrap (coord lo hi : Z) : Z :=
  if coord >? hi then lo else if coord <? lo then hi else coord.

(** One cell from [p] in direction [d]. *)
Definition offset (d : eDirection) (p : Z * Z) : Z * Z :=
  match d with
  | LEFT => (p.1 - 1, p.2)
  | RIGHT => (p.1 + 1, p.2)
  | UP => (p.1, p.2 - 1)
  | DOWN => (p.1, p.2 + 1)
  | STOP => p
  end.

(** Slot [j] of an array after the tail shift of [Logic], in terms of the
    array [a] and the head coordinate [h] before it. *)
Definition shifted (n : Z) (h : Z) (a : list Z) (j : nat) : option Z :=
  if decide (j = 0%nat) then Some h
  else if decide (Z.of_nat j < n) then a !! (j - 1)%nat
  else a !! j.

(** The collision check of this tick fired. *)
Definition crashed (s0 s' : state) : Prop :=
  exists s1, advance s0 = Some s1 /\ on_tail s1 (headX s1) (headY s1) /\
             s' = set_gameOver 1 s1.

(** ** Keys *)

(** The keys that ask for each direction. *)
Inductive requests : Z -> eDirection -> Prop :=
| req_a : requests (chr "a") LEFT
| req_A : requests (chr "A") LEFT
| req_KEY_LEFT : requests KEY_LEFT LEFT
| req_d : requests (chr "d") RIGHT
| req_D : requests (chr "D") RIGHT
| req_KEY_RIGHT : requests KEY_RIGHT RIGHT
| req_w : requests (chr "w") UP
| req_W : requests (chr "W") UP
| req_KEY_UP : requests KEY_UP UP
| req_s : requests (chr "s") DOWN
| req_S : requests (chr "S") DOWN
| req_KEY_DOWN : requests KEY_DOWN DOWN.

(** The exact reverse of a direction. *)
Definition reverse_of (d : eDirection) : eDirection :=
  match d with
  | LEFT => RIGHT
  | RIGHT => LEFT
  | UP => DOWN
  | DOWN => UP
  | STOP => STOP
  end.

(** ** Frames *)

(** The cells on which a frame shows a tail segment. *)
Definition segments_drawn (frame : list call) : list (Z * Z) :=
  map (fun c => (col c, row c))
      (List.filter (fun c => String.eqb (fmt c) "o") frame).

(** ** Example runs *)

(** A seed that places the first food one cell to the right of the
    starting head, on (21, 10), and the second on (30, 15). *)
Definition seed_east : nat -> Z :=
  fun n => match n with
           | 0%nat => 20 | 1%nat => 9 | 2%nat => 29 | 3%nat => 14 | _ => 3
           end.

(** A seed that places food on (21, 10) and then on (4, 4). *)
Definition seed_again : nat -> Z :=
  fun n => match n with 0%nat => 20 | 1%nat => 9 | _ => 3 end.

(** A seed that places food at (21, 10), then at (22, 10), and from then
    on samples (22, 10) for ever. *)
Definition seed_trap : nat -> Z :=
  fun n => match n with
           | 0%nat => 20
           | 1%nat => 9
           | _ => if Nat.even n then 21 else 9
           end.

(** A seed whose every sample is (20, 10), the cell of the starting head. *)
Definition seed_head : nat -> Z := fun n => if Nat.even n then 19 else 9.

(** A seed that places food at (19, 10), then samples (21, 10), then
    (4, 4) for ever. *)
Definition seed_ghost : nat -> Z :=
  fun n => match n with
           | 0%nat => 18 | 1%nat => 9 | 2%nat => 20 | 3%nat => 9 | _ => 3
           end.

(** The globals when [Setup] calls [PlaceFood] in the first playthrough. *)
Definition at_start : state :=
  set_nTail 0 (set_score 0 (set_headY (Z.quot HEIGHT 2)
    (set_headX (Z.quot WIDTH 2) (set_dir STOP (set_gameOver 0 initial_state))))).

(** A head on the right edge. *)
Definition on_right_edge : state :=
  set_dir RIGHT (set_headY 7 (set_headX WIDTH initial_state)).

(** A first playthrough: eat the food at (21, 10), move on one cell so that
    slot 0 receives (21, 10), then quit. *)
Definition first_game : list event :=
  [Pass [chr "d"] true; Pass [] true; Pass [chr "q"] false].

(** A snake of two segments moving right, its third food put under its
    head by the attempt cap, turns about through Up, Left in one poll. *)
Definition before_crash : option (state * rng) :=
  play seed_trap [Pass [chr "d"] true; Pass [] true; Pass [] true;
                  Pass [KEY_UP; KEY_LEFT] false].

(** A game in which every move eats: the head goes right three times and
    down once, over and over, [path_cell m] being its cell after [m]
    moves, and [seed_path] puts each new food on the next cell of that
    path. *)
Definition path_cell (m : nat) : Z * Z :=
  let c := Z.of_nat (m / 4) in
  let j := Z.of_nat (m mod 4) in
  ((20 + 3 * c + j - 1) mod WIDTH + 1, (10 + c - 1) mod HEIGHT + 1).

Definition seed_path : nat -> Z :=
  fun n => let p := path_cell (n / 2 + 1) in
           if Nat.even n then p.1 - 1 else p.2 - 1.

Definition path_key (m : nat) : Z :=
  if (m mod 4 <? 3)%nat then KEY_RIGHT else KEY_DOWN.

Definition path_game (n : nat) : list event :=
  map (fun m => Pass [path_key m] true) (seq 0 n).

(** ** The path of the head *)

(** The cells the head has left in this playthrough, the latest first: a
    pass whose tick moves the snake puts the cell the head is on in front;
    a restart starts afresh. *)
Definition step_trail (e : event) (s : state) (trail : list (Z * Z))
  : list (Z * Z) :=
  match e with
  | Pass pending true =>
      if decide (dir (Input pending s).1 = STOP) then trail
      else (headX s, headY s) :: trail
  | Pass _ false => trail
  | Restart _ => []
  end.

(** [run], keeping the trail. *)
Fixpoint run_trail (es : list event) (s : state) (g : rng)
    (trail : list (Z * Z)) : option (state * rng * list (Z * Z)) :=
  match es with
  | [] => Some (s, g, trail)
  | e :: es' => r ← step e s g; run_trail es' r.1 r.2 (step_trail e s trail)
  end.

Definition play_trail (seed : nat -> Z) (es : list event)
  : option (state * rng * list (Z * Z)) :=
  r ← Setup seed initial_state; run_trail es r.1 r.2 [].

(** The first [n] tail segments lie on the first [n] cells of the trail:
    segment [j] is where the head was [j + 1] moves ago. *)
Definition follows (s : state) (trail : list (Z * Z)) (n : Z) : Prop :=
  forall j : nat, Z.of_nat j < n ->
    exists p, trail !! j = Some p /\ segment_at s (Z.of_nat j) p.1 p.2.

(** ** The segments a playthrough has written *)

(** The number of leading tail slots that the shifts of this playthrough
    have written.  The shift of a tick that moves the snake writes the
    slots [0 .. nTail - 1]; [nTail] does not shrink within a playthrough,
    so these are all the slots written so far.  [nTail++] counts one more
    slot and writes nothing; a restart starts afresh. *)
Definition step_written (e : event) (s : state) (w : Z) : Z :=
  match e with
  | Pass pending true =>
      if decide (dir (Input pending s).1 = STOP) then w else nTail s
  | Pass _ false => w
  | Restart _ => 0
  end.

(** [run], keeping the number of written slots. *)
Fixpoint run_written (es : list event) (s : state) (g : rng) (w : Z)
  : option (state * rng * Z) :=
  match es with
  | [] => Some (s, g, w)
  | e :: es' => r ← step e s g; run_written es' r.1 r.2 (step_written e s w)
  end.

Definition play_written (seed : nat -> Z) (es : list event)
  : option (state * rng * Z) :=
  r ← Setup seed initial_state; run_written es r.1 r.2 0.

(** The head is on none of the first [w] tail segments. *)
Definition head_off_written (s : state) (w : Z) : Prop :=
  forall j, 0 <= j < w -> ~ segment_at s j (headX s) (headY s).

(** The passes of one playthrough. *)
Definition pass_events (ps : list (list Z * bool)) : list event :=
  map (fun p => Pass p.1 p.2) ps.

(** ** More keys *)

(** The two keys that quit. *)
Definition is_quit (ch : Z) : bool := (ch =? chr "q") || (ch =? chr "Q").

(** The keys [Input] has a [case] for. *)
Definition is_bound (ch : Z) : bool :=
  existsb (Z.eqb ch)
    [chr "a"; chr "A"; KEY_LEFT; chr "d"; chr "D"; KEY_RIGHT;
     chr "w"; chr "W"; KEY_UP; chr "s"; chr "S"; KEY_DOWN; chr "q"; chr "Q"].

(** The food is on one of the cells of the board. *)
Definition food_on_board (s : state) : Prop :=
  1 <= foodX s <= WIDTH /\ 1 <= foodY s <= HEIGHT.

(** ** What the screen shows *)

(** [%d] of [printf]: the decimal digits of an [int]. *)
Definition digits (n : Z) : string :=
  DecimalString.NilZero.string_of_int (Z.to_int n).

(** The text a format prints: each [%d] replaced by the digits of the next
    argument, every other character as it is. *)
Fixpoint format (f : string) (args : list Z) : string :=
  match f with
  | EmptyString => EmptyString
  | String "%" (String "d" rest) =>
      match args with
      | n :: args' => digits n ++ format rest args'
      | [] => String "%" (String "d" (format rest []))
      end
  | String c rest => String c (format rest args)
  end.

Definition render (k : call) : string := format (fmt k) (args k).

(** The call writes on the cell in row [r], column [c]. *)
Definition covers (r c : Z) (k : call) : bool :=
  (row k =? r) && (col k <=? c)
  && (c <? col k + Z.of_nat (String.length (render k))).

(** The character a call that covers the cell leaves on it. *)
Definition char_at (c : Z) (k : call) : option ascii :=
  String.get (Z.to_nat (c - col k)) (render k).

(** What a cell shows after the calls of [frame], made in order on a
    screen wide enough: the character of the last call that covers it. *)
Fixpoint shown (frame : list call) (r c : Z) : option ascii :=
  match frame with
  | [] => None
  | k :: rest =>
      match shown rest r c with
      | Some ch => Some ch
      | None => if covers r c k then char_at c k else None
      end
  end.

(** The call stays inside a window of [HEIGHT + 6] rows and [WIDTH + 2]
    columns, the least [main] accepts. *)
Definition fits_window (k : call) : Prop :=
  0 <= row k < HEIGHT + 6 /\
  0 <= col k /\ col k + Z.of_nat (String.length (render k)) <= WIDTH + 2.

#[global] Instance fits_window_dec k : Decision (fits_window k).
Proof. unfold fits_window. apply _. Defined.

(** The cell is on the frame around the board. *)
Definition on_border (x y : Z) : Prop :=
  (0 <= x <= WIDTH + 1 /\ (y = 0 \/ y = HEIGHT + 1)) \/
  (0 <= y <= HEIGHT + 1 /\ (x = 0 \/ x = WIDTH + 1)).

#[global] Instance on_border_dec x y : Decision (on_border x y).
Proof. unfold on_border. apply _. Defined.

(** ** Tactics *)

Ltac zlia := unfold TAIL_CAP, WIDTH, HEIGHT in *; lia.

Ltac splits := repeat match goal with |- _ /\ _ => split end.

Ltac small_tac :=
  unfold small, head_on_board in *;
  cbn [set_gameOver set_score set_headX set_headY set_foodX set_foodY set_food
       set_tail set_nTail set_dir gameOver score headX headY foodX foodY
       tailX tailY nTail dir fst snd] in *;
  intuition (try assumption; try lia).

(** * Properties *)

(** ** The parts of the program *)

(** *** Array accesses within bounds *)

Lemma in_bounds_true i : 0 <= i < TAIL_CAP -> in_bounds i = true.
Proof. unfold in_bounds. intros H. apply andb_true_iff. split; lia. Qed.

Lemma in_bounds_false i : ~ (0 <= i < TAIL_CAP) -> in_bounds i = false.
Proof. unfold in_bounds. intros H. apply andb_false_iff. lia. Qed.

Lemma aget_in a i :
  length a = Z.to_nat TAIL_CAP -> 0 <= i < TAIL_CAP ->
  exists v, aget a i = Some v /\ a !! Z.to_nat i = Some v.
Proof.
  intros Hlen Hi. unfold aget. rewrite in_bounds_true by exact Hi.
  destruct (lookup_lt_is_Some_2 a (Z.to_nat i)) as [v Hv]; [lia|].
  exists v. split; exact Hv.
Qed.

Lemma aset_in a i v :
  0 <= i < TAIL_CAP -> aset a i v = Some (<[Z.to_nat i := v]> a).
Proof. intros Hi. unfold aset. now rewrite in_bounds_true. Qed.

(** *** The scanning loop *)

Lemma slot_is_spec tx ty i x y :
  length tx = Z.to_nat TAIL_CAP -> length ty = Z.to_nat TAIL_CAP ->
  0 <= i < TAIL_CAP ->
  exists b, slot_is tx ty i x y = Some b /\
    (b = true <-> tx !! Z.to_nat i = Some x /\ ty !! Z.to_nat i = Some y).
Proof.
  intros Hx Hy Hi. unfold slot_is.
  destruct (aget_in tx i Hx Hi) as (vx & -> & Hvx).
  destruct (aget_in ty i Hy Hi) as (vy & Hgy & Hvy).
  cbn [mbind option_bind]. rewrite Hvx, Hvy.
  destruct (vx =? x) eqn:Ex.
  - rewrite Hgy. cbn [mbind option_bind]. exists (vy =? y).
    split; [reflexivity|]. apply Z.eqb_eq in Ex. subst vx.
    rewrite Z.eqb_eq. split; [intros ->; now split|intros [_ [= ->]]; reflexivity].
  - exists false. split; [reflexivity|]. split; [discriminate|].
    intros [[= ->] _]. rewrite Z.eqb_refl in Ex. discriminate.
Qed.

Lemma tail_scan_spec n i tx ty x y :
  length tx = Z.to_nat TAIL_CAP -> length ty = Z.to_nat TAIL_CAP ->
  0 <= i -> i + Z.of_nat n <= TAIL_CAP ->
  exists b, tail_scan n i tx ty x y = Some b /\
    (b = true <->
     exists j, i <= j < i + Z.of_nat n /\
               tx !! Z.to_nat j = Some x /\ ty !! Z.to_nat j = Some y).
Proof.
  intros Hx Hy. revert i. induction n as [|n IH]; intros i Hi Hn.
  - exists false. split; [reflexivity|]. split; [discriminate|].
    intros (j & Hj & _). lia.
  - cbn [tail_scan].
    destruct (slot_is_spec tx ty i x y Hx Hy) as (hit & -> & Hhit); [lia|].
    cbn [mbind option_bind]. destruct hit.
    + exists true. split; [reflexivity|]. split; [|reflexivity].
      intros _. exists i. split; [lia|]. now apply Hhit.
    + destruct (IH (i + 1)) as (b & Hb & Hiff); [lia|lia|].
      exists b. split; [exact Hb|]. rewrite Hiff. split.
      * intros (j & Hj & H). exists j. split; [lia|exact H].
      * intros (j & Hj & Hjx & Hjy).
        destruct (Z.eq_dec j i) as [->|Hne].
        -- assert (false = true) by (apply Hhit; now split). discriminate.
        -- exists j. split; [lia|]. now split.
Qed.

Lemma isPositionOnSnake_spec s x y :
  wf s -> nTail s <= TAIL_CAP ->
  exists b, isPositionOnSnake s x y = Some b /\
    (b = true <-> (headX s = x /\ headY s = y) \/ on_tail s x y).
Proof.
  intros [Hx Hy] Hn. unfold isPositionOnSnake.
  destruct ((headX s =? x) && (headY s =? y)) eqn:E.
  - exists true. split; [reflexivity|]. split; [|reflexivity].
    intros _. left. apply andb_true_iff in E as [Ex Ey].
    apply Z.eqb_eq in Ex, Ey. now split.
  - destruct (tail_scan_spec (Z.to_nat (nTail s)) 0 (tailX s) (tailY s) x y)
      as (b & Hb & Hiff); [exact Hx|exact Hy|lia|zlia|].
    exists b. split; [exact Hb|]. rewrite Hiff. split.
    + intros (j & Hj & H). right. exists j. split; [lia|exact H].
    + intros [[Ex Ey]|(j & Hj & H)].
      * subst. rewrite !Z.eqb_refl in E. discriminate.
      * exists j. split; [lia|exact H].
Qed.

Lemma selfCollides_spec s :
  wf s -> nTail s <= TAIL_CAP ->
  exists b, selfCollides s = Some b /\
    (b = true <-> on_tail s (headX s) (headY s)).
Proof.
  intros [Hx Hy] Hn. unfold selfCollides.
  destruct (tail_scan_spec (Z.to_nat (nTail s)) 0 (tailX s) (tailY s)
              (headX s) (headY s))
    as (b & Hb & Hiff); [exact Hx|exact Hy|lia|zlia|].
  exists b. split; [exact Hb|]. rewrite Hiff. split.
  - intros (j & Hj & H). exists j. split; [lia|exact H].
  - intros (j & Hj & H). exists j. split; [lia|exact H].
Qed.

(** *** Food placement *)

Lemma occupied_set_food s p q : occupied (set_food q s) p <-> occupied s p.
Proof. reflexivity. Qed.

Lemma sample_skip2 g k : sample (skip 2 g) k = sample g (S k).
Proof.
  unfold sample, skip. cbn [gen pos].
  replace (pos g + 2 + 2 * k)%nat with (pos g + 2 * S k)%nat by lia.
  replace (pos g + 2 + 2 * k + 1)%nat with (pos g + 2 * S k + 1)%nat by lia.
  reflexivity.
Qed.

Lemma skip_skip n m g : skip n (skip m g) = skip (m + n) g.
Proof. unfold skip. cbn [gen pos]. f_equal. lia. Qed.

Lemma PlaceFood_loop_step fuel a s g :
  PlaceFood_loop (S fuel) a s g =
  let s2 := set_food (sample g 0) s in
  if a + 1 >? WIDTH * HEIGHT then Some (s2, skip 2 g, a + 1)
  else
    b ← isPositionOnSnake s2 (foodX s2) (foodY s2);
    if b : bool then PlaceFood_loop fuel (a + 1) s2 (skip 2 g)
    else Some (s2, skip 2 g, a + 1).
Proof.
  cbn [PlaceFood_loop]. unfold rand, sample, skip, set_food. cbn [gen pos fst snd].
  replace (pos g + 2 * 0)%nat with (pos g) by lia.
  replace (pos g + 1)%nat with (S (pos g)) by lia.
  replace (pos g + 2)%nat with (S (S (pos g))) by lia.
  reflexivity.
Qed.

(** With enough fuel the loop returns after [k + 1] passes for some [k]:
    the samples before the [k]-th were all on the snake, and the [k]-th is
    free unless the attempt cap was hit. *)
Lemma PlaceFood_loop_spec fuel a s g :
  wf s -> nTail s <= TAIL_CAP -> 0 <= a ->
  Z.max 1 (WIDTH * HEIGHT + 1 - a) <= Z.of_nat fuel ->
  exists k : nat,
    PlaceFood_loop fuel a s g
      = Some (set_food (sample g k) s, skip (2 * (k + 1)) g, a + Z.of_nat k + 1) /\
    a + Z.of_nat k + 1 <= Z.max (a + 1) (WIDTH * HEIGHT + 1) /\
    (forall j : nat, (j < k)%nat -> occupied s (sample g j)) /\
    (a + Z.of_nat k + 1 <= WIDTH * HEIGHT -> ~ occupied s (sample g k)).
Proof.
  revert a s g. induction fuel as [|fuel IH]; intros a s g Hwf Hn Ha Hfuel.
  - (* the body of a do-while runs at least once *)
    exfalso. lia.
  - rewrite PlaceFood_loop_step. cbv zeta.
    destruct (a + 1 >? WIDTH * HEIGHT) eqn:Ecap.
    + exists 0%nat. replace (a + Z.of_nat 0 + 1) with (a + 1) by lia.
      split; [reflexivity|]. split; [lia|]. split; [lia|]. zlia.
    + destruct (isPositionOnSnake_spec (set_food (sample g 0) s)
                  (foodX (set_food (sample g 0) s))
                  (foodY (set_food (sample g 0) s)))
        as (b & Hb & Hiff); [exact Hwf|exact Hn|].
      rewrite Hb. cbn [mbind option_bind].
      change (foodX (set_food (sample g 0) s)) with (sample g 0).1 in Hiff.
      change (foodY (set_food (sample g 0) s)) with (sample g 0).2 in Hiff.
      destruct b.
      * destruct (IH (a + 1) (set_food (sample g 0) s) (skip 2 g))
          as (k & Hk & Hle & Hocc & Hfree); [exact Hwf|exact Hn|lia|zlia|].
        exists (S k). rewrite Hk, skip_skip, sample_skip2.
        replace (a + 1 + Z.of_nat k + 1) with (a + Z.of_nat (S k) + 1) in * by lia.
        replace (2 + 2 * (k + 1))%nat with (2 * (S k + 1))%nat by lia.
        split; [reflexivity|]. split; [zlia|]. split.
        -- intros [|j] Hj.
           ++ apply Hiff. reflexivity.
           ++ rewrite <- sample_skip2. apply (Hocc j). lia.
        -- rewrite <- sample_skip2. exact Hfree.
      * exists 0%nat. replace (a + Z.of_nat 0 + 1) with (a + 1) by lia.
        split; [reflexivity|]. split; [lia|]. split; [lia|].
        intros _ Hocc. apply Hiff in Hocc. discriminate.
Qed.

(** Whatever it returns, [PlaceFood] writes [foodX] and [foodY] only, and
    writes one of its samples there. *)
Lemma PlaceFood_loop_frame fuel a s g s' g' n :
  PlaceFood_loop fuel a s g = Some (s', g', n) ->
  exists k, s' = set_food (sample g k) s.
Proof.
  revert a s g. induction fuel as [|fuel IH]; intros a s g H; [discriminate|].
  rewrite PlaceFood_loop_step in H. cbv zeta in H.
  destruct (a + 1 >? WIDTH * HEIGHT).
  - injection H as <- _ _. exists 0%nat. reflexivity.
  - destruct (isPositionOnSnake _ _ _) as [[|]|]; cbn [mbind option_bind] in H.
    + apply IH in H as [k ->]. exists (S k). rewrite sample_skip2. reflexivity.
    + injection H as <- _ _. exists 0%nat. reflexivity.
    + discriminate.
Qed.

Lemma PlaceFood_frame s g s' g' :
  PlaceFood s g = Some (s', g') -> exists k, s' = set_food (sample g k) s.
Proof.
  unfold PlaceFood, PlaceFood_attempts. intros H.
  destruct (PlaceFood_loop _ _ _ _) as [[[s1 g1] n]|] eqn:E;
    cbn [mbind option_bind fst] in H; [|discriminate].
  injection H as <- <-. eapply PlaceFood_loop_frame. exact E.
Qed.

Lemma PlaceFood_attempts_spec s g :
  wf s -> nTail s <= TAIL_CAP ->
  exists k : nat,
    PlaceFood_attempts s g
      = Some (set_food (sample g k) s, skip (2 * (k + 1)) g, Z.of_nat k + 1) /\
    Z.of_nat k + 1 <= WIDTH * HEIGHT + 1 /\
    (forall j : nat, (j < k)%nat -> occupied s (sample g j)) /\
    (Z.of_nat k + 1 <= WIDTH * HEIGHT -> ~ occupied s (sample g k)).
Proof.
  intros Hwf Hn. unfold PlaceFood_attempts.
  destruct (PlaceFood_loop_spec PlaceFood_fuel 0 s g Hwf Hn)
    as (k & Hk & Hle & Hocc & Hfree); [lia|unfold PlaceFood_fuel; zlia|].
  exists k. rewrite Hk. replace (0 + Z.of_nat k + 1) with (Z.of_nat k + 1) in * by lia.
  split; [reflexivity|]. split; [zlia|]. split; assumption.
Qed.

(** More fuel than [PlaceFood_fuel] changes nothing: the loop has left. *)
Lemma PlaceFood_loop_fuel fuel s g :
  wf s -> nTail s <= TAIL_CAP -> (PlaceFood_fuel <= fuel)%nat ->
  PlaceFood_loop fuel 0 s g = PlaceFood_attempts s g.
Proof.
  intros Hwf Hn Hfuel.
  destruct (PlaceFood_attempts_spec s g Hwf Hn) as (k & -> & Hk & Hocc & Hfree).
  destruct (PlaceFood_loop_spec fuel 0 s g Hwf Hn)
    as (k' & -> & Hk' & Hocc' & Hfree'); [lia|unfold PlaceFood_fuel in *; zlia|].
  assert (k' = k) as ->; [|reflexivity].
  destruct (lt_eq_lt_dec k' k) as [[Hlt| ->]|Hlt]; [|reflexivity|]; exfalso.
  - apply Hfree'; [zlia|]. apply Hocc. exact Hlt.
  - apply Hfree; [zlia|]. apply Hocc'. exact Hlt.
Qed.

Lemma PlaceFood_spec s g :
  wf s -> nTail s <= TAIL_CAP ->
  exists k : nat,
    PlaceFood s g = Some (set_food (sample g k) s, skip (2 * (k + 1)) g) /\
    Z.of_nat k + 1 <= WIDTH * HEIGHT + 1 /\
    (forall j : nat, (j < k)%nat -> occupied s (sample g j)) /\
    (Z.of_nat k + 1 <= WIDTH * HEIGHT -> ~ occupied s (sample g k)).
Proof.
  intros Hwf Hn.
  destruct (PlaceFood_attempts_spec s g Hwf Hn) as (k & Hk & H).
  exists k. unfold PlaceFood. rewrite Hk. split; [reflexivity|exact H].
Qed.

(** *** Shifting the tail *)

(** The descending loop copies every slot [0 .. n-1] one place up and
    leaves all other slots alone; since slot [j] is written before slot
    [j-1], every copy reads a value of the array before the loop. *)
Lemma shift_loop_spec n tx ty :
  length tx = Z.to_nat TAIL_CAP -> length ty = Z.to_nat TAIL_CAP ->
  Z.of_nat n < TAIL_CAP ->
  exists tx' ty',
    shift_loop n tx ty = Some (tx', ty') /\
    length tx' = Z.to_nat TAIL_CAP /\ length ty' = Z.to_nat TAIL_CAP /\
    forall j : nat,
      tx' !! j = (if decide (1 <= j <= n)%nat then tx !! (j - 1)%nat else tx !! j) /\
      ty' !! j = (if decide (1 <= j <= n)%nat then ty !! (j - 1)%nat else ty !! j).
Proof.
  revert tx ty. induction n as [|n IH]; intros tx ty Hx Hy Hn.
  - exists tx, ty. split; [reflexivity|]. split; [exact Hx|]. split; [exact Hy|].
    intros j. destruct (decide _) as [Hj|_]; [lia|]. now split.
  - cbn [shift_loop].
    replace (Z.of_nat (S n) - 1) with (Z.of_nat n) by lia.
    destruct (aget_in tx (Z.of_nat n) Hx) as (vx & -> & Hvx); [lia|].
    destruct (aget_in ty (Z.of_nat n) Hy) as (vy & -> & Hvy); [lia|].
    cbn [mbind option_bind]. rewrite aset_in by lia.
    cbn [mbind option_bind]. rewrite aset_in by lia.
    cbn [mbind option_bind]. rewrite Nat2Z.id in *.
    destruct (IH (<[S n := vx]> tx) (<[S n := vy]> ty))
      as (tx' & ty' & Hs & Hx' & Hy' & Hj); [| |lia|].
    { now rewrite length_insert. }
    { now rewrite length_insert. }
    exists tx', ty'. split; [exact Hs|]. split; [exact Hx'|]. split; [exact Hy'|].
    intros j. destruct (Hj j) as [Hjx Hjy]. rewrite Hjx, Hjy. clear Hjx Hjy Hj.
    destruct (decide (1 <= j <= n)%nat) as [Hin|Hout].
    + rewrite !list_lookup_insert_ne by lia.
      destruct (decide _) as [_|Hc]; [now split|lia].
    + destruct (decide (j = S n)) as [->|Hne].
      * rewrite !list_lookup_insert_eq by lia.
        destruct (decide _) as [_|Hc]; [|lia].
        replace (S n - 1)%nat with n by lia. now split.
      * rewrite !list_lookup_insert_ne by lia.
        destruct (decide _) as [Hc|_]; [lia|now split].
Qed.

Lemma shift_tail_spec s :
  wf s -> nTail s <= TAIL_CAP ->
  exists s1,
    shift_tail s = Some s1 /\ wf s1 /\
    (exists tx ty, s1 = set_tail tx ty s) /\
    (0 < nTail s ->
     forall j : nat,
       tailX s1 !! j = shifted (nTail s) (headX s) (tailX s) j /\
       tailY s1 !! j = shifted (nTail s) (headY s) (tailY s) j) /\
    (nTail s <= 0 -> s1 = s).
Proof.
  intros [Hx Hy] Hn. unfold shift_tail.
  destruct (nTail s >? 0) eqn:E.
  - destruct (shift_loop_spec (Z.to_nat (nTail s - 1)) (tailX s) (tailY s))
      as (tx' & ty' & -> & Hx' & Hy' & Hj); [exact Hx|exact Hy|lia|].
    cbn [mbind option_bind fst snd]. rewrite aset_in by zlia.
    cbn [mbind option_bind]. rewrite aset_in by zlia.
    cbn [mbind option_bind]. eexists. split; [reflexivity|].
    split; [|split; [|split]].
    + split; cbn [set_tail tailX tailY]; now rewrite length_insert.
    + eauto.
    + intros _ j. cbn [set_tail tailX tailY]. change (Z.to_nat 0) with 0%nat.
      unfold shifted. destruct (decide (j = 0%nat)) as [->|Hne].
      * rewrite !list_lookup_insert_eq by zlia. now split.
      * rewrite !list_lookup_insert_ne by lia.
        destruct (Hj j) as [-> ->].
        destruct (decide (Z.of_nat j < nTail s)).
        -- destruct (decide _) as [_|Hc]; [now split|lia].
        -- destruct (decide _) as [Hc|_]; [lia|now split].
    + lia.
  - exists s. split; [reflexivity|]. split; [now split|].
    split; [exists (tailX s), (tailY s); now destruct s|].
    split; [lia|reflexivity].
Qed.

(** *** The new head position *)

(** The wrapping [if]/[else if] followed by the two clamping [if]s of
    [Logic], on one axis: the clamps never fire. *)
Lemma axis_wrap v hi :
  1 <= hi ->
  (let v1 := if v >? hi then 1 else if v <? 1 then hi else v in
   let v2 := if v1 <? 1 then 1 else v1 in
   if v2 >? hi then hi else v2) = wrap v 1 hi.
Proof.
  intros Hhi. unfold wrap. cbv zeta.
  destruct (v >? hi) eqn:E1; [|destruct (v <? 1) eqn:E2].
  - change (1 <? 1) with false. cbv iota. destruct (1 >? hi) eqn:E; lia.
  - destruct (hi <? 1) eqn:E3; [lia|]. destruct (hi >? hi) eqn:E4; lia.
  - rewrite E2, E1. reflexivity.
Qed.

Lemma wrap_range v hi : 1 <= hi -> 1 <= wrap v 1 hi <= hi.
Proof.
  intros Hhi. unfold wrap.
  destruct (v >? hi) eqn:E1; [lia|]. destruct (v <? 1) eqn:E2; lia.
Qed.

Lemma newHead_wrap s :
  newHead s = (wrap (offset (dir s) (headX s, headY s)).1 1 WIDTH,
               wrap (offset (dir s) (headX s, headY s)).2 1 HEIGHT).
Proof.
  unfold newHead.
  destruct (dir s); cbn [offset fst snd]; cbv zeta;
    (f_equal; [apply (axis_wrap _ WIDTH)|apply (axis_wrap _ HEIGHT)]); zlia.
Qed.

Lemma newHead_range s :
  1 <= (newHead s).1 <= WIDTH /\ 1 <= (newHead s).2 <= HEIGHT.
Proof.
  rewrite newHead_wrap. cbn [fst snd].
  split; apply wrap_range; zlia.
Qed.

(** *** The parts of Logic *)

Lemma advance_spec s :
  wf s -> nTail s <= TAIL_CAP ->
  exists s1,
    advance s = Some s1 /\ wf s1 /\ same_game s s1 /\
    (headX s1, headY s1) = newHead s /\
    (0 < nTail s ->
     forall j : nat,
       tailX s1 !! j = shifted (nTail s) (headX s) (tailX s) j /\
       tailY s1 !! j = shifted (nTail s) (headY s) (tailY s) j) /\
    (nTail s <= 0 -> tailX s1 = tailX s /\ tailY s1 = tailY s).
Proof.
  intros Hwf Hn. unfold advance.
  destruct (newHead s) as [nx ny] eqn:Enew.
  destruct (shift_tail_spec s Hwf Hn) as (s1 & -> & Hwf1 & (tx & ty & ->) & Hpos & Hzero).
  cbn [mbind option_bind]. eexists. split; [reflexivity|].
  split; [exact Hwf1|]. split; [repeat split|]. split; [reflexivity|].
  split.
  - intros H j. exact (Hpos H j).
  - intros H. rewrite (Hzero H) at 1 2. split; reflexivity.
Qed.

Lemma Logic_STOP s g : dir s = STOP -> Logic s g = Some (s, g).
Proof. intros H. unfold Logic. destruct (decide _); [reflexivity|contradiction]. Qed.

(** The three ways a tick can end once the snake is moving. *)
Lemma Logic_cases s g :
  wf s -> nTail s <= TAIL_CAP -> dir s <> STOP ->
  exists s1,
    advance s = Some s1 /\
    ((on_tail s1 (headX s1) (headY s1) /\
      Logic s g = Some (set_gameOver 1 s1, g))
     \/ (~ on_tail s1 (headX s1) (headY s1) /\
         newHead s = (foodX s, foodY s) /\
         Logic s g = PlaceFood (set_nTail (nTail s + 1)
                                  (set_score (score s + 10) s1)) g)
     \/ (~ on_tail s1 (headX s1) (headY s1) /\
         newHead s <> (foodX s, foodY s) /\
         Logic s g = Some (s1, g))).
Proof.
  intros Hwf Hn Hdir.
  destruct (advance_spec s Hwf Hn) as (s1 & Hadv & Hwf1 & Hsame & Hhead & _).
  destruct Hsame as (_ & Hsc & _ & _ & HnT & _).
  exists s1. split; [exact Hadv|].
  unfold Logic. destruct (decide _) as [Hc|_]; [contradiction|].
  destruct (newHead s) as [nx ny] eqn:Enew. rewrite Hadv.
  cbn [mbind option_bind].
  destruct (selfCollides_spec s1 Hwf1) as (hit & -> & Hhit); [lia|].
  cbn [mbind option_bind]. destruct hit.
  - left. split; [now apply Hhit|reflexivity].
  - assert (~ on_tail s1 (headX s1) (headY s1)) as Hfree.
    { intros H. apply Hhit in H. discriminate. }
    destruct ((nx =? foodX s) && (ny =? foodY s)) eqn:Eeat.
    + right. left. split; [exact Hfree|].
      apply andb_true_iff in Eeat as [Ex Ey]. apply Z.eqb_eq in Ex, Ey.
      split; [congruence|]. cbn [set_score nTail]. rewrite Hsc, HnT. reflexivity.
    + right. right. split; [exact Hfree|]. split; [|reflexivity].
      intros [= -> ->]. rewrite !Z.eqb_refl in Eeat. discriminate.
Qed.

(** *** Frame properties, valid for every state *)

Lemma shift_loop_length n tx ty tx' ty' :
  shift_loop n tx ty = Some (tx', ty') ->
  length tx' = length tx /\ length ty' = length ty.
Proof.
  revert tx ty. induction n as [|n IH]; intros tx ty H.
  - injection H as <- <-. now split.
  - cbn [shift_loop] in H. unfold aset in H.
    destruct (aget tx _); cbn [mbind option_bind] in H; [|discriminate].
    destruct (in_bounds _); cbn [mbind option_bind] in H; [|discriminate].
    destruct (aget ty _); cbn [mbind option_bind] in H; [|discriminate].
    apply IH in H. rewrite !length_insert in H. exact H.
Qed.

(** Beyond the declared size the very first store of the loop is out of
    bounds. *)
Lemma shift_loop_overflow n tx ty :
  TAIL_CAP <= Z.of_nat n -> shift_loop n tx ty = None.
Proof.
  intros Hn. destruct n as [|n]; [zlia|].
  cbn [shift_loop]. unfold aset. rewrite in_bounds_false by lia.
  destruct (aget tx _); reflexivity.
Qed.

Lemma shift_tail_frame s s1 :
  shift_tail s = Some s1 ->
  exists tx ty, s1 = set_tail tx ty s /\
    length tx = length (tailX s) /\ length ty = length (tailY s).
Proof.
  unfold shift_tail. intros H. destruct (nTail s >? 0).
  - destruct (shift_loop _ _ _) as [[tx ty]|] eqn:E;
      cbn [mbind option_bind fst snd] in H; [|discriminate].
    apply shift_loop_length in E as [Ex Ey]. unfold aset in H.
    destruct (in_bounds 0); cbn [mbind option_bind] in H; [|discriminate].
    injection H as <-. eexists _, _. split; [reflexivity|].
    rewrite !length_insert. now split.
  - injection H as <-. exists (tailX s), (tailY s). now destruct s.
Qed.

Lemma advance_frame s s1 :
  advance s = Some s1 ->
  same_game s s1 /\ (headX s1, headY s1) = newHead s /\
  length (tailX s1) = length (tailX s) /\ length (tailY s1) = length (tailY s).
Proof.
  unfold advance. intros H. destruct (newHead s) as [nx ny].
  destruct (shift_tail s) as [s0|] eqn:E; cbn [mbind option_bind] in H; [|discriminate].
  injection H as <-. apply shift_tail_frame in E as (tx & ty & -> & Hx & Hy).
  split; [repeat split|]. split; [reflexivity|]. split; assumption.
Qed.

Lemma advance_overflow s : TAIL_CAP < nTail s -> advance s = None.
Proof.
  intros Hn. unfold advance, shift_tail. destruct (newHead s) as [nx ny].
  replace (nTail s >? 0) with true by zlia.
  rewrite shift_loop_overflow by zlia. reflexivity.
Qed.

(** A tick keeps the direction and the array sizes, puts the head on
    [newHead] when the snake moves, and either keeps score and tail length
    or adds 10 and 1 to them. *)
Lemma Logic_frame s g s' g' :
  Logic s g = Some (s', g') ->
  dir s' = dir s /\
  length (tailX s') = length (tailX s) /\ length (tailY s') = length (tailY s) /\
  (dir s <> STOP -> (headX s', headY s') = newHead s) /\
  ((score s' = score s /\ nTail s' = nTail s) \/
   (score s' = score s + 10 /\ nTail s' = nTail s + 1)).
Proof.
  unfold Logic. intros H. destruct (decide (dir s = STOP)) as [Hd|Hd].
  - injection H as <- <-. splits; try reflexivity; [contradiction|now left].
  - destruct (newHead s) as [nx ny] eqn:Enew.
    destruct (advance s) as [s1|] eqn:Eadv; cbn [mbind option_bind] in H; [|discriminate].
    apply advance_frame in Eadv as ((_ & Hsc & _ & _ & HnT & Hdir) & Hhead & Hx & Hy).
    rewrite Enew in Hhead.
    destruct (selfCollides s1) as [[|]|]; cbn [mbind option_bind] in H; [| |discriminate].
    + injection H as <- <-. cbn [set_gameOver dir tailX tailY headX headY score nTail].
      splits; try assumption; [now intros _|now left].
    + destruct ((nx =? foodX s) && (ny =? foodY s)).
      * apply PlaceFood_frame in H as [p ->].
        cbn [set_food set_foodX set_foodY set_nTail set_score
             dir tailX tailY headX headY score nTail].
        splits; try assumption; [now intros _|right; split; lia].
      * injection H as <- <-. splits; try assumption; [now intros _|now left].
Qed.

Lemma Input_key_frame ch s : same_snake s (Input_key ch s).
Proof.
  unfold Input_key.
  repeat match goal with
         | |- context [if ?c then _ else _] => destruct c
         end; repeat split.
Qed.

Lemma Input_frame pending s : same_snake s (Input pending s).1.
Proof.
  revert s. induction pending as [|k rest IH]; intros s; cbn [Input].
  - repeat split.
  - destruct (k =? ERR); [repeat split|].
    specialize (IH (Input_key k s)).
    pose proof (Input_key_frame k s) as Hk.
    unfold same_snake in *. intuition congruence.
Qed.

Lemma Setup_frame seed s s' g' :
  Setup seed s = Some (s', g') ->
  gameOver s' = 0 /\ dir s' = STOP /\ score s' = 0 /\ nTail s' = 0 /\
  headX s' = 20 /\ headY s' = 10 /\
  tailX s' = tailX s /\ tailY s' = tailY s.
Proof.
  unfold Setup. intros H. apply PlaceFood_frame in H as [p ->].
  repeat split.
Qed.

(** [Setup] always returns: with an empty tail no array is read. *)
Lemma Setup_total seed s : wf s -> exists s' g', Setup seed s = Some (s', g').
Proof.
  intros Hwf. unfold Setup.
  edestruct PlaceFood_spec as (k & -> & _); [| |eauto].
  - exact Hwf.
  - cbn [set_nTail nTail]. zlia.
Qed.

(** *** The game loop *)

Lemma step_Pass pending due s g s' g' :
  step (Pass pending due) s g = Some (s', g') ->
  gameOver s = 0 /\
  if due then Logic (Input pending s).1 g = Some (s', g')
  else (s', g') = ((Input pending s).1, g).
Proof.
  cbn [step]. unfold loop_pass. intros H.
  destruct (gameOver s =? 0) eqn:E; [|discriminate].
  split; [lia|]. destruct due.
  - destruct (Logic _ _) as [r|]; cbn [mbind option_bind] in H; [|discriminate].
    destruct (Draw _); cbn [mbind option_bind fst] in H; [|discriminate].
    injection H as <-. reflexivity.
  - cbn [mbind option_bind fst] in H. injection H as <- <-. reflexivity.
Qed.

Lemma step_Restart seed s g s' g' :
  step (Restart seed) s g = Some (s', g') ->
  gameOver s <> 0 /\ Setup seed s = Some (s', g').
Proof.
  cbn [step]. intros H. destruct (gameOver s =? 0) eqn:E; [discriminate|].
  split; [lia|exact H].
Qed.

Lemma run_reachable es s g s' g' :
  reachable s g -> run es s g = Some (s', g') -> reachable s' g'.
Proof.
  revert s g. induction es as [|e es IH]; intros s g Hr H.
  - injection H as <- <-. exact Hr.
  - cbn [run] in H. destruct (step e s g) as [[s1 g1]|] eqn:E;
      cbn [mbind option_bind fst snd] in H; [|discriminate].
    eapply IH; [|exact H]. eapply reach_step; eassumption.
Qed.

Lemma play_reachable seed es s g :
  play seed es = Some (s, g) -> reachable s g.
Proof.
  unfold play. intros H.
  destruct (Setup seed initial_state) as [[s0 g0]|] eqn:E;
    cbn [mbind option_bind fst snd] in H; [|discriminate].
  eapply run_reachable; [|exact H]. eapply reach_Setup. exact E.
Qed.

Lemma reachable1_reachable s g : reachable1 s g -> reachable s g.
Proof.
  induction 1 as [seed s g H|pending due s g s' g' _ IH H].
  - eapply reach_Setup. exact H.
  - eapply reach_step; eassumption.
Qed.

Lemma wf_initial : wf initial_state.
Proof. split; reflexivity. Qed.

Lemma step_wf e s g s' g' : wf s -> step e s g = Some (s', g') -> wf s'.
Proof.
  intros [Hx Hy] H. destruct e as [pending due|seed].
  - apply step_Pass in H as [_ H].
    destruct (Input_frame pending s) as (_ & _ & _ & _ & _ & Ex & Ey & _).
    destruct due.
    + apply Logic_frame in H as (_ & Lx & Ly & _). split; congruence.
    + injection H as -> _. split; congruence.
  - apply step_Restart in H as [_ H].
    apply Setup_frame in H as (_ & _ & _ & _ & _ & _ & Ex & Ey). split; congruence.
Qed.

Lemma reachable_wf s g : reachable s g -> wf s.
Proof.
  induction 1 as [seed s g H|e s g s' g' _ IH H].
  - apply Setup_frame in H as (_ & _ & _ & _ & _ & _ & Ex & Ey).
    destruct wf_initial. split; congruence.
  - eapply step_wf; eassumption.
Qed.

(** A tick returns as long as the arrays can take one more segment. *)
Lemma Logic_total s g :
  wf s -> nTail s < TAIL_CAP -> exists s' g', Logic s g = Some (s', g').
Proof.
  intros Hwf Hn. destruct (decide (dir s = STOP)) as [Hd|Hd].
  - rewrite Logic_STOP by exact Hd. eauto.
  - destruct (Logic_cases s g Hwf) as (s1 & Hadv & [[_ ->]|[(_ & _ & ->)|(_ & _ & ->)]]);
      [lia|exact Hd|eauto| |eauto].
    apply advance_frame in Hadv as (_ & _ & Hx & Hy).
    edestruct PlaceFood_spec as (k & -> & _); [| |eauto].
    + destruct Hwf. split; cbn [set_nTail set_score tailX tailY]; congruence.
    + cbn [set_nTail nTail]. lia.
Qed.

(** ** Score and tail length (C2) *)

(** [Setup] zeroes score and tail length ... *)
Lemma Setup_score seed s s' g' :
  Setup seed s = Some (s', g') -> nTail s' * 10 = score s'.
Proof.
  intros H. apply Setup_frame in H as (_ & _ & -> & -> & _). reflexivity.
Qed.

(** ... and whatever the game loop does next adds 10 to the one exactly
    when it adds 1 to the other. *)
Lemma step_score e s g s' g' :
  nTail s * 10 = score s -> step e s g = Some (s', g') ->
  nTail s' * 10 = score s'.
Proof.
  intros Hs H. destruct e as [pending due|seed].
  - apply step_Pass in H as [_ H].
    destruct (Input_frame pending s) as (Esc & _ & _ & _ & _ & _ & _ & En).
    destruct due.
    + apply Logic_frame in H as (_ & _ & _ & _ & [[-> ->]|[-> ->]]); lia.
    + injection H as -> _. lia.
  - apply step_Restart in H as [_ H]. eapply Setup_score. exact H.
Qed.

(** C2. In every reachable state, that is after [Setup] and after any
    number of passes of the game loop (and restarts), the tail length times
    10 equals the score. *)
Theorem score_is_ten_per_segment s g :
  reachable s g -> nTail s * 10 = score s.
Proof.
  induction 1 as [seed s g H|e s g s' g' _ IH H].
  - eapply Setup_score. exact H.
  - eapply step_score; eassumption.
Qed.

(** The state after the first food has been eaten: one segment, 10 points. *)
Lemma score_is_ten_per_segment_witness :
  exists s g,
    play seed_east [Pass [chr "d"] true] = Some (s, g) /\
    nTail s = 1 /\ nTail s * 10 = score s.
Proof.
  eexists _, _. split; [vm_compute; reflexivity|]. split; [reflexivity|].
  apply (score_is_ten_per_segment _ (mkRng seed_east 4)).
  apply (play_reachable seed_east [Pass [chr "d"] true]).
  vm_compute. reflexivity.
Defined.

(** ** Self-collision ends the tick (C3) *)

(** C3. If, once the tail has shifted and the head has moved, the head
    lies on a tail segment, the tick sets [gameOver] and returns at once:
    score, tail length and food are those from before the tick and no
    random number is drawn, wherever the food is (also under the new
    head). *)
Theorem collision_returns_before_eating s g s1 j :
  wf s -> nTail s <= TAIL_CAP -> dir s <> STOP ->
  advance s = Some s1 ->
  0 <= j < nTail s1 -> segment_at s1 j (headX s1) (headY s1) ->
  exists s',
    Logic s g = Some (s', g) /\
    s' = set_gameOver 1 s1 /\
    gameOver s' = 1 /\
    score s' = score s /\ nTail s' = nTail s /\
    foodX s' = foodX s /\ foodY s' = foodY s.
Proof.
  intros Hwf Hn Hd Hadv Hj Hseg.
  destruct (Logic_cases s g Hwf Hn Hd) as (s1' & Hadv' & Hcases).
  rewrite Hadv in Hadv'. injection Hadv' as <-.
  apply advance_frame in Hadv as ((_ & Hsc & Hfx & Hfy & HnT & _) & _).
  assert (on_tail s1 (headX s1) (headY s1)) as Hon by (exists j; now split).
  destruct Hcases as [[_ HL]|[(Hfree & _)|(Hfree & _)]]; [|contradiction..].
  exists (set_gameOver 1 s1). split; [exact HL|]. split; [reflexivity|].
  cbn [set_gameOver gameOver score nTail foodX foodY].
  splits; [reflexivity|assumption..].
Qed.

(** The run [before_crash]: the head on (23, 10) steps left onto (22, 10),
    where the food lies and where the second segment arrives in the same
    tick.  The game is over, with the score still 20, two segments and the
    food still on (22, 10). *)
Lemma collision_returns_before_eating_witness :
  exists s g s1 s',
    before_crash = Some (s, g) /\
    advance s = Some s1 /\
    (headX s1, headY s1) = (foodX s, foodY s) /\
    segment_at s1 1 (headX s1) (headY s1) /\
    Logic s g = Some (s', g) /\
    (gameOver s', score s', nTail s', foodX s', foodY s') = (1, 20, 2, 22, 10).
Proof.
  eexists _, _, _, _. split; [vm_compute; reflexivity|].
  split; [vm_compute; reflexivity|].
  split; [reflexivity|]. split; [split; reflexivity|].
  match goal with
  | |- Logic ?s ?g = _ /\ _ =>
      destruct (collision_returns_before_eating
                  s g (default s (advance s)) 1) as (s' & HL & -> & _)
  end.
  - split; reflexivity.
  - vm_compute. discriminate.
  - vm_compute. discriminate.
  - vm_compute. reflexivity.
  - vm_compute. split; [discriminate|reflexivity].
  - split; reflexivity.
  - split; [exact HL|]. reflexivity.
Defined.

(** ** The advance step (C4) *)

(** C4. With a non-empty tail, the advance step moves every segment one
    slot away from the head ([tail[i] = tail[i-1]] for the old values, from
    the last index down to 1), stores in [tail[0]] the head position from
    before the move, and only then puts the head on its new position; the
    slots beyond the counted tail keep their contents.  With an empty tail
    no slot is written. *)
Theorem advance_shifts_tail_then_moves_head s :
  wf s -> nTail s <= TAIL_CAP ->
  exists s1,
    advance s = Some s1 /\
    (headX s1, headY s1) = newHead s /\
    (0 < nTail s ->
     segment_at s1 0 (headX s) (headY s) /\
     (forall i : nat, (1 <= i)%nat -> Z.of_nat i < nTail s ->
        tailX s1 !! i = tailX s !! (i - 1)%nat /\
        tailY s1 !! i = tailY s !! (i - 1)%nat) /\
     (forall i : nat, nTail s <= Z.of_nat i ->
        tailX s1 !! i = tailX s !! i /\ tailY s1 !! i = tailY s !! i)) /\
    (nTail s <= 0 -> tailX s1 = tailX s /\ tailY s1 = tailY s).
Proof.
  intros Hwf Hn.
  destruct (advance_spec s Hwf Hn) as (s1 & Hadv & _ & _ & Hhead & Hpos & Hzero).
  exists s1. split; [exact Hadv|]. split; [exact Hhead|]. split; [|exact Hzero].
  intros Hlt. specialize (Hpos Hlt). split; [|split].
  - destruct (Hpos 0%nat) as [Hx Hy]. split; [exact Hx|exact Hy].
  - intros i Hi1 Hi2. destruct (Hpos i) as [-> ->]. unfold shifted.
    destruct (decide (i = 0%nat)); [lia|].
    destruct (decide (Z.of_nat i < nTail s)); [now split|lia].
  - intros i Hi. destruct (Hpos i) as [-> ->]. unfold shifted.
    destruct (decide (i = 0%nat)); [lia|].
    destruct (decide (Z.of_nat i < nTail s)); [lia|now split].
Qed.

(** The two-segment snake of [before_crash], head on (23, 10) over
    segments (22, 10) and (21, 10), steps left: the segments become
    (23, 10) and (22, 10), the head (22, 10). *)
Lemma advance_shifts_tail_then_moves_head_witness :
  exists s g,
    before_crash = Some (s, g) /\
    (headX s, headY s) = (23, 10) /\
    (take 2 (tailX s), take 2 (tailY s)) = ([22; 21], [10; 10]) /\
    exists s1,
      advance s = Some s1 /\
      (headX s1, headY s1) = (22, 10) /\
      (take 2 (tailX s1), take 2 (tailY s1)) = ([23; 22], [10; 10]) /\
      drop 2 (tailX s1) = drop 2 (tailX s).
Proof.
  eexists _, _. split; [vm_compute; reflexivity|].
  split; [reflexivity|]. split; [reflexivity|].
  match goal with
  | |- exists s1, advance ?s = _ /\ _ =>
      destruct (advance_shifts_tail_then_moves_head s) as (s1 & Hadv & _)
  end.
  - split; reflexivity.
  - vm_compute. discriminate.
  - exists s1. split; [exact Hadv|]. vm_compute in Hadv. injection Hadv as <-.
    split; [reflexivity|]. split; reflexivity.
Defined.

(** ** Wraparound (C8) *)

(** C8. After a move each coordinate of the head is wrapped on its own: a
    value above the maximum becomes 1, a value below 1 becomes the maximum
    ([WIDTH] or [HEIGHT]), any other is unchanged.  So a head on
    [(WIDTH, y)] moving right arrives on [(1, y)], a head on [(1, y)]
    moving left on [(WIDTH, y)], and likewise down from [(x, HEIGHT)] to
    [(x, 1)] and up from [(x, 1)] to [(x, HEIGHT)]. *)
Theorem head_wraps_per_axis s g :
  wf s -> nTail s < TAIL_CAP -> dir s <> STOP ->
  exists s' g',
    Logic s g = Some (s', g') /\
    headX s' = wrap (offset (dir s) (headX s, headY s)).1 1 WIDTH /\
    headY s' = wrap (offset (dir s) (headX s, headY s)).2 1 HEIGHT /\
    (1 <= headX s <= WIDTH -> 1 <= headY s <= HEIGHT ->
     (dir s = RIGHT -> headX s = WIDTH -> (headX s', headY s') = (1, headY s)) /\
     (dir s = LEFT -> headX s = 1 -> (headX s', headY s') = (WIDTH, headY s)) /\
     (dir s = DOWN -> headY s = HEIGHT -> (headX s', headY s') = (headX s, 1)) /\
     (dir s = UP -> headY s = 1 -> (headX s', headY s') = (headX s, HEIGHT))).
Proof.
  intros Hwf Hn Hd.
  destruct (Logic_total s g Hwf Hn) as (s' & g' & HL).
  exists s', g'. split; [exact HL|].
  apply Logic_frame in HL as (_ & _ & _ & Hhead & _).
  specialize (Hhead Hd). rewrite newHead_wrap in Hhead.
  injection Hhead as -> ->. split; [reflexivity|]. split; [reflexivity|].
  intros Hx Hy. unfold wrap.
  splits; intros -> E; cbn [offset fst snd]; rewrite E in *;
    repeat match goal with
           | |- context [if ?c then _ else _] => destruct c eqn:?
           end; f_equal; zlia.
Qed.

Lemma head_wraps_per_axis_witness :
  exists s' g',
    Logic on_right_edge (srand seed_east) = Some (s', g') /\
    (headX s', headY s') = (1, 7).
Proof.
  destruct (head_wraps_per_axis on_right_edge (srand seed_east))
    as (s' & g' & HL & _ & _ & Hedge).
  - exact wf_initial.
  - vm_compute. reflexivity.
  - discriminate.
  - exists s', g'. split; [exact HL|].
    destruct Hedge as (Hright & _); [vm_compute; split; discriminate..|].
    apply Hright; reflexivity.
Defined.

(** ** Direction keys (C7, C10) *)

Lemma Input_key_requests ch d s :
  requests ch d ->
  Input_key ch s = if decide (dir s = reverse_of d) then s else set_dir d s.
Proof.
  intros H. destruct s as [go sc hx hy fx fy tx ty n cur].
  destruct H, cur; reflexivity.
Qed.

Lemma requests_not_ERR ch d : requests ch d -> ch <> ERR.
Proof. intros H. destruct H; discriminate. Qed.

(** C7. A direction key is accepted iff it does not ask for the exact
    reverse of the stored direction: Left is refused while the direction is
    Right, Right while Left, Up while Down and Down while Up, and the state
    is then left as it is; any other direction key, also one repeating the
    stored direction and any one pressed while the direction is [STOP],
    overwrites the direction at once and changes nothing else. *)
Theorem direction_key_accepted_iff_not_reverse ch d s :
  requests ch d ->
  (dir s = reverse_of d -> Input_key ch s = s) /\
  (dir s <> reverse_of d -> Input_key ch s = set_dir d s) /\
  (dir (Input_key ch s) = d <-> dir s <> reverse_of d).
Proof.
  intros H. rewrite (Input_key_requests ch d s H).
  destruct (decide (dir s = reverse_of d)) as [E|E].
  - split; [reflexivity|]. split; [contradiction|].
    split; [|contradiction]. intros Hd. rewrite E in Hd. destruct H; discriminate.
  - split; [contradiction|]. split; [reflexivity|]. split; [now intros _|reflexivity].
Qed.

(** Left is refused while moving right, accepted while moving up, while
    already moving left and before the first move. *)
Lemma direction_key_accepted_iff_not_reverse_witness :
  dir (Input_key KEY_LEFT (set_dir RIGHT initial_state)) = RIGHT /\
  dir (Input_key KEY_LEFT (set_dir UP initial_state)) = LEFT /\
  dir (Input_key KEY_LEFT (set_dir LEFT initial_state)) = LEFT /\
  dir (Input_key KEY_LEFT initial_state) = LEFT.
Proof.
  splits.
  - destruct (direction_key_accepted_iff_not_reverse
                KEY_LEFT LEFT (set_dir RIGHT initial_state) req_KEY_LEFT)
      as (Hrej & _).
    rewrite Hrej; reflexivity.
  - apply (direction_key_accepted_iff_not_reverse
             KEY_LEFT LEFT (set_dir UP initial_state) req_KEY_LEFT).
    discriminate.
  - apply (direction_key_accepted_iff_not_reverse
             KEY_LEFT LEFT (set_dir LEFT initial_state) req_KEY_LEFT).
    discriminate.
  - apply (direction_key_accepted_iff_not_reverse
             KEY_LEFT LEFT initial_state req_KEY_LEFT).
    discriminate.
Defined.

Lemma Input_getch pending s :
  Input pending s =
  let '(ch, rest) := getch pending in
  if ch =? ERR then (s, rest)
  else match pending with
       | [] => (s, rest)
       | _ :: _ => Input rest (Input_key ch s)
       end.
Proof. destruct pending as [|k rest]; reflexivity. Qed.

(** C10. One poll drains all pending keys, and each is checked against the
    direction stored when it is processed: the poll is [Input_key] applied
    key after key.  So Up followed by Left, pending together while the
    stored direction is Right, leave the direction Left: the reverse of the
    direction the snake last moved in. *)
Theorem poll_checks_each_key_against_stored_direction :
  (forall k rest s, k <> ERR -> Input (k :: rest) s = Input rest (Input_key k s)) /\
  (forall up left s,
     requests up UP -> requests left LEFT -> dir s = RIGHT ->
     (Input [up; left] s).1 = set_dir LEFT s /\
     dir (Input [up; left] s).1 = reverse_of (dir s)).
Proof.
  split.
  - intros k rest s Hk. cbn [Input].
    destruct (k =? ERR) eqn:E; [lia|reflexivity].
  - intros up left s Hup Hleft Hd. cbn [Input].
    pose proof (requests_not_ERR _ _ Hup) as Eup.
    pose proof (requests_not_ERR _ _ Hleft) as Eleft.
    apply Z.eqb_neq in Eup, Eleft. rewrite Eup, Eleft. cbn [fst].
    rewrite (Input_key_requests up UP s Hup).
    destruct (decide (dir s = reverse_of UP)) as [E|_];
      [rewrite Hd in E; discriminate|].
    rewrite (Input_key_requests left LEFT _ Hleft).
    destruct (decide _) as [E|_]; [discriminate|].
    rewrite Hd. split; [now destruct s|reflexivity].
Qed.

(** The snake has just moved right from (21, 10) to (22, 10); one poll
    with Up and Left pending, and the next tick takes the head back to
    (21, 10). *)
Lemma poll_checks_each_key_against_stored_direction_witness :
  exists s g s' g',
    play seed_east [Pass [chr "d"] true; Pass [] true] = Some (s, g) /\
    (headX s, headY s, dir s) = (22, 10, RIGHT) /\
    dir (Input [KEY_UP; KEY_LEFT] s).1 = LEFT /\
    step (Pass [KEY_UP; KEY_LEFT] true) s g = Some (s', g') /\
    (headX s', headY s') = (21, 10).
Proof.
  eexists _, _, _, _. split; [vm_compute; reflexivity|].
  split; [reflexivity|]. split.
  - destruct poll_checks_each_key_against_stored_direction as [_ H].
    match goal with
    | |- dir (Input _ ?s).1 = _ =>
        destruct (H KEY_UP KEY_LEFT s req_KEY_UP req_KEY_LEFT eq_refl) as [_ ->]
    end.
    reflexivity.
  - split; [vm_compute; reflexivity|reflexivity].
Defined.

(** ** Food placement (C5, C6) *)

Lemma wf_at_start : wf at_start.
Proof. split; reflexivity. Qed.

(** C5, as stated, fails: on a board with 799 free cells, among them
    (1, 1), [PlaceFood] puts the food on the head when the generator keeps
    sampling the head's cell. *)
Lemma food_on_head_despite_free_cells :
  exists s' g',
    PlaceFood at_start (srand seed_head) = Some (s', g') /\
    isPositionOnSnake at_start 1 1 = Some false /\
    (foodX s', foodY s') = (headX s', headY s') /\
    isPositionOnSnake s' (foodX s') (foodY s') = Some true.
Proof.
  eexists _, _. split; [vm_compute; reflexivity|].
  split; [reflexivity|]. split; reflexivity.
Qed.

(** C5, amended. Whenever at least one of the first [WIDTH * HEIGHT]
    sampled positions is not on the snake, food placement returns a
    position that is neither the head nor any counted tail entry. *)
Theorem food_off_snake_when_an_early_sample_is_free s g k :
  wf s -> nTail s <= TAIL_CAP ->
  Z.of_nat k < WIDTH * HEIGHT -> ~ occupied s (sample g k) ->
  exists s' g',
    PlaceFood s g = Some (s', g') /\
    isPositionOnSnake s' (foodX s') (foodY s') = Some false /\
    (foodX s', foodY s') <> (headX s', headY s') /\
    (forall j, 0 <= j < nTail s' -> ~ segment_at s' j (foodX s') (foodY s')).
Proof.
  intros Hwf Hn Hk Hfree.
  destruct (PlaceFood_spec s g Hwf Hn) as (k0 & HP & Hcap & Hocc & Hfree0).
  assert (~ occupied s (sample g k0)) as Hoff.
  { apply Hfree0. destruct (decide (k0 <= k)%nat) as [Hle|Hgt]; [lia|].
    exfalso. apply Hfree, Hocc. lia. }
  exists (set_food (sample g k0) s), (skip (2 * (k0 + 1)) g).
  split; [exact HP|].
  change (foodX (set_food (sample g k0) s)) with (sample g k0).1.
  change (foodY (set_food (sample g k0) s)) with (sample g k0).2.
  split; [|split].
  - destruct (isPositionOnSnake_spec (set_food (sample g k0) s)
                (sample g k0).1 (sample g k0).2) as (b & Hb & Hiff);
      [exact Hwf|exact Hn|].
    rewrite Hb. destruct b; [|reflexivity].
    exfalso. apply Hoff. apply Hiff. reflexivity.
  - intros [= Ex Ey]. apply Hoff. left. split; symmetry; assumption.
  - intros j Hj Hseg. apply Hoff. right. exists j. split; [exact Hj|exact Hseg].
Qed.

Lemma food_off_snake_when_an_early_sample_is_free_witness :
  exists s' g',
    PlaceFood at_start (srand seed_east) = Some (s', g') /\
    (foodX s', foodY s') = (21, 10) /\
    (foodX s', foodY s') <> (headX s', headY s').
Proof.
  destruct (food_off_snake_when_an_early_sample_is_free
              at_start (srand seed_east) 0)
    as (s' & g' & HP & _ & Hhead & _).
  - exact wf_at_start.
  - vm_compute. discriminate.
  - reflexivity.
  - intros [[H _]|(j & Hj & _)]; [vm_compute in H; discriminate|].
    change (nTail at_start) with 0 in Hj. lia.
  - exists s', g'. split; [exact HP|]. split; [|exact Hhead].
    vm_compute in HP. injection HP as <- _. reflexivity.
Defined.

(** C6, as stated, fails: with every sample on the snake the loop takes
    [WIDTH * HEIGHT + 1 = 801] samples (1602 calls of [rand]), one more
    than the bound claimed. *)
Lemma food_placement_takes_one_more_sample :
  exists s' g',
    PlaceFood_attempts at_start (srand seed_head) = Some (s', g', 801) /\
    pos g' = 1602%nat /\
    WIDTH * HEIGHT < 801.
Proof.
  eexists _, _. split; [vm_compute; reflexivity|].
  split; reflexivity.
Qed.

(** C6, amended. Food placement always returns, after at most
    [WIDTH * HEIGHT + 1] sampling attempts (two calls of [rand] each), with
    the food on the last position sampled; if each of the first
    [WIDTH * HEIGHT] samples is on the snake, it returns the next one
    without testing it.  More fuel than [PlaceFood_fuel] gives the same
    result. *)
Theorem food_placement_stops_at_the_attempt_cap s g :
  wf s -> nTail s <= TAIL_CAP ->
  exists s' g' n,
    PlaceFood_attempts s g = Some (s', g', n) /\
    PlaceFood s g = Some (s', g') /\
    (forall fuel, (PlaceFood_fuel <= fuel)%nat ->
       PlaceFood_loop fuel 0 s g = Some (s', g', n)) /\
    1 <= n <= WIDTH * HEIGHT + 1 /\
    Z.of_nat (pos g') = Z.of_nat (pos g) + 2 * n /\
    (foodX s', foodY s') = sample g (Z.to_nat (n - 1)) /\
    ((forall j : nat, Z.of_nat j < WIDTH * HEIGHT -> occupied s (sample g j)) ->
     n = WIDTH * HEIGHT + 1).
Proof.
  intros Hwf Hn.
  destruct (PlaceFood_attempts_spec s g Hwf Hn) as (k & HP & Hcap & Hocc & Hfree).
  exists (set_food (sample g k) s), (skip (2 * (k + 1)) g), (Z.of_nat k + 1).
  split; [exact HP|]. split; [unfold PlaceFood; now rewrite HP|].
  split; [intros fuel Hfuel; now rewrite PlaceFood_loop_fuel|].
  split; [lia|]. split; [cbn [skip pos]; lia|].
  replace (Z.to_nat (Z.of_nat k + 1 - 1)) with k by lia.
  split; [now destruct (sample g k)|].
  intros Hall. destruct (decide (Z.of_nat k + 1 <= WIDTH * HEIGHT)) as [Hle|Hgt]; [|lia].
  exfalso. apply (Hfree Hle). apply Hall. lia.
Qed.

Lemma food_placement_stops_at_the_attempt_cap_witness :
  exists s' g' n,
    PlaceFood_attempts at_start (srand seed_head) = Some (s', g', n) /\
    1 <= n <= WIDTH * HEIGHT + 1.
Proof.
  destruct (food_placement_stops_at_the_attempt_cap at_start (srand seed_head))
    as (s' & g' & n & HP & _ & _ & Hn & _).
  - exact wf_at_start.
  - vm_compute. discriminate.
  - exists s', g', n. split; [exact HP|exact Hn].
Defined.

(** ** The head and the tail segments (C1) *)

(** The segments of the snake are the slots that a shift has written: the
    shift of a tick writes every counted slot, and the collision check of
    the same tick compares the head with each of them.  [nTail++] counts
    one more slot without writing it; the shift of the next tick that
    moves the snake writes it before anything compares the head with it. *)

(** A tick that moves the snake and returns has come through [advance] and
    leaves the arrays as [advance] left them. *)
Lemma Logic_moving s g s' g' :
  dir s <> STOP -> Logic s g = Some (s', g') ->
  exists s1, advance s = Some s1 /\
    tailX s' = tailX s1 /\ tailY s' = tailY s1 /\
    headX s' = headX s1 /\ headY s' = headY s1.
Proof.
  intros Hd H. unfold Logic in H. destruct (decide _) as [|_]; [contradiction|].
  destruct (newHead s) as [nx ny].
  destruct (advance s) as [s1|]; cbn [mbind option_bind] in H; [|discriminate].
  exists s1. split; [reflexivity|].
  destruct (selfCollides s1) as [[|]|]; cbn [mbind option_bind] in H; [| |discriminate].
  - injection H as <- _. now repeat split.
  - destruct ((nx =? foodX s) && (ny =? foodY s)).
    + apply PlaceFood_frame in H as [k ->]. now repeat split.
    + injection H as <- _. now repeat split.
Qed.

Lemma run_written_snoc es e s g w :
  run_written (es ++ [e]) s g w =
  r ← run_written es s g w;
  r' ← step e r.1.1 r.1.2;
  Some (r', step_written e r.1.1 r.2).
Proof.
  revert s g w. induction es as [|a es IH]; intros s g w;
    cbn [app run_written mbind option_bind fst snd].
  - destruct (step e s g) as [[s1 g1]|]; reflexivity.
  - destruct (step a s g) as [[s1 g1]|]; cbn [mbind option_bind fst snd];
      [apply IH|reflexivity].
Qed.

(** [run_written] is [run] with one more component. *)
Lemma run_written_run es s g w :
  run es s g = r ← run_written es s g w; Some r.1.
Proof.
  revert s g w. induction es as [|a es IH]; intros s g w; cbn [run run_written].
  - reflexivity.
  - destruct (step a s g) as [[s1 g1]|]; cbn [mbind option_bind fst snd];
      [apply IH|reflexivity].
Qed.

Lemma play_written_play seed es :
  play seed es = r ← play_written seed es; Some r.1.
Proof.
  unfold play, play_written.
  destruct (Setup seed initial_state) as [[s g]|];
    cbn [mbind option_bind fst snd]; [apply run_written_run|reflexivity].
Qed.

(** Every state the program reaches is the end of an instrumented run. *)
Lemma reachable_play_written s g :
  reachable s g -> exists seed es w, play_written seed es = Some (s, g, w).
Proof.
  induction 1 as [seed s g HS|e s g s' g' _ (seed & es & w & IH) Hstep].
  - exists seed, [], 0. unfold play_written. now rewrite HS.
  - exists seed, (es ++ [e]), (step_written e s w).
    unfold play_written in *.
    destruct (Setup seed initial_state) as [[s0 g0]|];
      cbn [mbind option_bind fst snd] in *; [|discriminate].
    rewrite run_written_snoc, IH. cbn [mbind option_bind fst snd].
    now rewrite Hstep.
Qed.

(** One pass: the collision check of a tick that moves the snake has just
    compared the head with every slot the shift wrote. *)
Lemma pass_written pending due s g s' g' w :
  wf s -> nTail s - 1 <= w <= nTail s -> head_off_written s w ->
  step (Pass pending due) s g = Some (s', g') ->
  nTail s' - 1 <= step_written (Pass pending due) s w <= nTail s' /\
  w <= step_written (Pass pending due) s w /\
  (head_off_written s' (step_written (Pass pending due) s w) \/
   (due = true /\ crashed (Input pending s).1 s' /\
    ~ head_off_written s' (step_written (Pass pending due) s w))).
Proof.
  intros Hwf Hb Hoff H. apply step_Pass in H as [_ H].
  destruct (Input_frame pending s) as (_ & Ehx & Ehy & _ & _ & Etx & Ety & En).
  assert (wf (Input pending s).1) as Hwf0 by (destruct Hwf; split; congruence).
  assert (head_off_written (Input pending s).1 w) as Hoff0.
  { intros j Hj. unfold segment_at. rewrite Etx, Ety, Ehx, Ehy. now apply Hoff. }
  destruct due; cbn [step_written].
  - destruct (decide (dir (Input pending s).1 = STOP)) as [Hd|Hd].
    + rewrite Logic_STOP in H by exact Hd. injection H as <- _.
      split; [lia|]. split; [lia|]. now left.
    + destruct (decide (nTail (Input pending s).1 <= TAIL_CAP)) as [Hn|Hn].
      2:{ destruct (Logic_moving _ _ _ _ Hd H) as (s1 & Hadv & _).
          rewrite advance_overflow in Hadv by lia. discriminate. }
      destruct (Logic_cases _ g Hwf0 Hn Hd) as (s1 & Hadv & Hc).
      pose proof (advance_frame _ _ Hadv) as ((_ & _ & _ & _ & HnT & _) & _).
      destruct Hc as [(Hon & HL)|[(Hfree & _ & HL)|(Hfree & _ & HL)]];
        rewrite HL in H.
      * injection H as <- _.
        change (nTail (set_gameOver 1 s1)) with (nTail s1).
        split; [lia|]. split; [lia|]. right. split; [reflexivity|].
        split; [exists s1; now repeat split|].
        intros Hoffs. destruct Hon as (j & Hj & Hseg).
        apply (Hoffs j); [lia|exact Hseg].
      * apply PlaceFood_frame in H as [k ->].
        split; [cbn; lia|]. split; [lia|]. left.
        intros j Hj Hseg. apply Hfree. exists j. split; [lia|exact Hseg].
      * injection H as <- _. split; [lia|]. split; [lia|]. left.
        intros j Hj Hseg. apply Hfree. exists j. split; [lia|exact Hseg].
  - injection H as -> _. split; [lia|]. split; [lia|]. now left.
Qed.

Lemma step_written_inv e s g s' g' w :
  wf s -> 0 <= w -> nTail s - 1 <= w <= nTail s ->
  (gameOver s = 0 -> head_off_written s w) ->
  step e s g = Some (s', g') ->
  wf s' /\ 0 <= step_written e s w /\
  nTail s' - 1 <= step_written e s w <= nTail s' /\
  (gameOver s' = 0 -> head_off_written s' (step_written e s w)).
Proof.
  intros Hwf Hw Hb Hoff H. split; [eapply step_wf; eassumption|].
  destruct e as [pending due|seed].
  - pose proof (step_Pass _ _ _ _ _ _ H) as [Hgo _].
    destruct (pass_written _ _ _ _ _ _ w Hwf Hb (Hoff Hgo) H)
      as (Hb' & Hmono & Hcase).
    split; [lia|]. split; [exact Hb'|].
    intros Hgo'. destruct Hcase as [Hoff'|(_ & (s1 & _ & _ & ->) & _)];
      [exact Hoff'|discriminate].
  - apply step_Restart in H as [_ H].
    apply Setup_frame in H as (_ & _ & _ & HnT & _).
    cbn [step_written]. split; [lia|]. split; [lia|]. intros _ j Hj. lia.
Qed.

Lemma run_written_inv es s g w s' g' w' :
  wf s -> 0 <= w -> nTail s - 1 <= w <= nTail s ->
  (gameOver s = 0 -> head_off_written s w) ->
  run_written es s g w = Some (s', g', w') ->
  wf s' /\ 0 <= w' /\ nTail s' - 1 <= w' <= nTail s' /\
  (gameOver s' = 0 -> head_off_written s' w').
Proof.
  revert s g w. induction es as [|e es IH]; intros s g w Hwf Hw Hb Hoff H.
  - injection H as <- <- <-. split; [exact Hwf|]. split; [exact Hw|].
    split; [exact Hb|exact Hoff].
  - cbn [run_written] in H. destruct (step e s g) as [[s1 g1]|] eqn:E;
      cbn [mbind option_bind fst snd] in H; [|discriminate].
    destruct (step_written_inv _ _ _ _ _ w Hwf Hw Hb Hoff E)
      as (Hwf1 & Hw1 & Hb1 & Hoff1).
    eapply IH; [exact Hwf1|exact Hw1|exact Hb1|exact Hoff1|exact H].
Qed.

(** The slots not written are as the playthrough found them: its passes
    change no slot from [w] on. *)
Lemma unwritten_slots_untouched ps s g w s' g' w' :
  wf s -> nTail s - 1 <= w <= nTail s ->
  run_written (pass_events ps) s g w = Some (s', g', w') ->
  w <= w' /\
  forall j : nat, w' <= Z.of_nat j ->
    tailX s' !! j = tailX s !! j /\ tailY s' !! j = tailY s !! j.
Proof.
  revert s g w. induction ps as [|[pending due] ps IH]; intros s g w Hwf Hb H.
  - injection H as <- <- <-. split; [lia|]. now intros j _.
  - cbn [pass_events map run_written fst snd] in H.
    destruct (step (Pass pending due) s g) as [[s1 g1]|] eqn:E;
      cbn [mbind option_bind fst snd] in H; [|discriminate].
    set (w1 := step_written (Pass pending due) s w) in *.
    assert (nTail s1 - 1 <= w1 <= nTail s1 /\ w <= w1 /\
            forall j : nat, w1 <= Z.of_nat j ->
              tailX s1 !! j = tailX s !! j /\ tailY s1 !! j = tailY s !! j)
      as (Hb1 & Hmono & Hkeep).
    { subst w1. pose proof E as HL. apply step_Pass in HL as [_ HL].
      destruct (Input_frame pending s) as (_ & _ & _ & _ & _ & Etx & Ety & En).
      assert (wf (Input pending s).1) as Hwf0 by (destruct Hwf; split; congruence).
      destruct due; cbn [step_written].
      - destruct (decide (dir (Input pending s).1 = STOP)) as [Hd|Hd].
        + rewrite Logic_STOP in HL by exact Hd. injection HL as <- _.
          split; [lia|]. split; [lia|]. intros j _. now rewrite Etx, Ety.
        + destruct (Logic_moving _ _ _ _ Hd HL) as (s2 & Hadv & Ex & Ey & _).
          destruct (decide (nTail (Input pending s).1 <= TAIL_CAP)) as [Hn|Hn];
            [|rewrite advance_overflow in Hadv by lia; discriminate].
          destruct (advance_spec _ Hwf0 Hn) as (s2' & Hadv' & _ & _ & _ & Hpos & Hzero).
          rewrite Hadv in Hadv'. injection Hadv' as <-.
          apply Logic_frame in HL as (_ & _ & _ & _ & Hgrow).
          split; [lia|]. split; [lia|]. intros j Hj. rewrite Ex, Ey.
          destruct (decide (0 < nTail (Input pending s).1)) as [Hlt|Hle].
          * destruct (Hpos Hlt j) as [-> ->]. unfold shifted.
            destruct (decide (j = 0%nat)); [lia|].
            destruct (decide (Z.of_nat j < nTail (Input pending s).1)); [lia|].
            now rewrite Etx, Ety.
          * destruct Hzero as [-> ->]; [lia|]. now rewrite Etx, Ety.
      - injection HL as -> _. split; [lia|]. split; [lia|].
        intros j _. now rewrite Etx, Ety. }
    destruct (IH s1 g1 w1 (step_wf _ _ _ _ _ Hwf E) Hb1 H) as [Hmono' Hkeep'].
    split; [lia|]. intros j Hj.
    destruct (Hkeep' j Hj) as [-> ->]. apply Hkeep. lia.
Qed.

(** C1. In every run of the program, restarts included, the head is on none
    of the tail segments written in the current playthrough, except in the
    state that comes out of the tick whose collision check has just ended
    the game, where it is on one of them.  In particular it is on none
    while the game is on.  The segments written are the first [w]: all the
    counted ones, or all but the one that [nTail++] counted on the last
    tick and that no shift has written yet. *)
Theorem head_off_every_written_segment seed es s g w :
  play_written seed es = Some (s, g, w) ->
  0 <= w /\ nTail s - 1 <= w <= nTail s /\
  (gameOver s = 0 -> head_off_written s w) /\
  (head_off_written s w \/
   exists es0 pending s0 g0 w0,
     es = es0 ++ [Pass pending true] /\
     play_written seed es0 = Some (s0, g0, w0) /\
     crashed (Input pending s0).1 s /\ ~ head_off_written s w).
Proof.
  unfold play_written. intros H.
  destruct (Setup seed initial_state) as [[si gi]|] eqn:E;
    cbn [mbind option_bind fst snd] in H; [|discriminate].
  pose proof (Setup_frame _ _ _ _ E) as (Hgo & _ & _ & HnT & _).
  assert (wf si) as Hwf by (eapply reachable_wf, reach_Setup, E).
  assert (gameOver si = 0 -> head_off_written si 0) as Hoff
    by (intros _ j Hj; lia).
  destruct es as [|e es _] using rev_ind.
  - injection H as <- <- <-. split; [lia|]. split; [lia|].
    split; [exact Hoff|]. left. exact (Hoff Hgo).
  - rewrite run_written_snoc in H.
    destruct (run_written es si gi 0) as [[[s0 g0] w0]|] eqn:Erun;
      cbn [mbind option_bind fst snd] in H; [|discriminate].
    destruct (step e s0 g0) as [[s1 g1]|] eqn:Estep;
      cbn [mbind option_bind fst snd] in H; [|discriminate].
    injection H as <- <- <-.
    assert (0 <= 0) as Hz by lia.
    assert (nTail si - 1 <= 0 <= nTail si) as Hbi by lia.
    destruct (run_written_inv _ _ _ _ _ _ _ Hwf Hz Hbi Hoff Erun)
      as (Hwf0 & Hw0 & Hb0 & Hoff0).
    destruct e as [pending due|seed'].
    + pose proof (step_Pass _ _ _ _ _ _ Estep) as [Hgo0 _].
      destruct (pass_written _ _ _ _ _ _ w0 Hwf0 Hb0 (Hoff0 Hgo0) Estep)
        as (Hb1 & Hmono & Hcase).
      split; [lia|]. split; [exact Hb1|].
      destruct Hcase as [Hoff1|(-> & Hcrash & Hon)].
      * split; [intros _; exact Hoff1|now left].
      * split; [destruct Hcrash as (s2 & _ & _ & ->); discriminate|].
        right. exists es, pending, s0, g0, w0. split; [reflexivity|].
        split; [exact Erun|]. split; [exact Hcrash|exact Hon].
    + apply step_Restart in Estep as [_ Estep].
      apply Setup_frame in Estep as (_ & _ & _ & HnT1 & _).
      cbn [step_written]. split; [lia|]. split; [lia|].
      split; [intros _ j Hj; lia|]. left. intros j Hj. lia.
Qed.

(** A playthrough that leaves a segment on (23, 10), a restart, and two
    moves to the right of which the first eats: one segment is counted and
    written, it lies on (21, 10), and the head is on (22, 10). *)
Lemma head_off_every_written_segment_witness :
  exists s g w,
    play_written seed_east
      (first_game ++ [Restart seed_again; Pass [KEY_RIGHT] true; Pass [] true])
      = Some (s, g, w) /\
    nTail s = 1 /\ w = 1 /\ segment_at s 0 21 10 /\
    (headX s, headY s) = (22, 10) /\
    0 <= w /\ nTail s - 1 <= w <= nTail s /\
    head_off_written s w.
Proof.
  destruct (play_written seed_east
              (first_game ++ [Restart seed_again; Pass [KEY_RIGHT] true; Pass [] true]))
    as [[[s g] w]|] eqn:E; [|vm_compute in E; discriminate].
  exists s, g, w. split; [reflexivity|].
  destruct (head_off_every_written_segment _ _ _ _ _ E) as (Hw & Hb & Hon & _).
  assert (gameOver s = 0) as Hgo by (vm_compute in E; now injection E as <- _ _).
  assert (nTail s = 1 /\ w = 1 /\ segment_at s 0 21 10 /\
          (headX s, headY s) = (22, 10)) as (H1 & H2 & H3 & H4).
  { vm_compute in E. injection E as <- _ <-. now repeat split. }
  split; [exact H1|]. split; [exact H2|]. split; [exact H3|]. split; [exact H4|].
  split; [exact Hw|]. split; [exact Hb|exact (Hon Hgo)].
Defined.

(** The theorem stops at the slots written.  The slot [nTail++] has just
    counted holds what an earlier playthrough left in it, and that can be
    the cell the head is on: here no slot is written yet, one is counted,
    and it holds the head's cell.  The next tick that moves the snake
    overwrites the slot before its collision check reads it. *)
Lemma counted_slot_not_yet_written :
  exists s g,
    play_written seed_east
      (first_game ++ [Restart seed_again; Pass [KEY_RIGHT] true])
      = Some (s, g, 0) /\
    gameOver s = 0 /\ nTail s = 1 /\
    (headX s, headY s) = (21, 10) /\
    segment_at s 0 (headX s) (headY s).
Proof.
  eexists _, _. split; [vm_compute; reflexivity|].
  splits; try reflexivity. split; reflexivity.
Qed.

(** ** Tail slots left over from an earlier playthrough (C9) *)

(** [Setup] resets [nTail] but not the arrays; [nTail++] in [Logic] counts
    a slot whose contents nobody has written in this playthrough.  In the
    first playthrough that slot holds (0, 0), which is off the board; after
    a restart it holds whatever the previous playthrough left there. *)

(** C9 at a failing input.  Two runs start from states that differ in the
    contents of the uncounted tail slots only: [Setup] with [seed_ghost]
    on the initial globals, and the same [Setup] after [first_game].  The
    same key and the same tick then eat the food at (19, 10) in both; the
    run after the restart refuses the sample (21, 10) for the new food and
    draws a tail segment there, the other run puts the food on it and
    draws no segment. *)
Theorem stale_slot_changes_food_and_frame :
  exists sa sb g sa' sb' ga' gb' fa fb,
    play seed_ghost [] = Some (sa, g) /\
    play seed_east (first_game ++ [Restart seed_ghost]) = Some (sb, g) /\
    nTail sa = 0 /\ sa = set_tail (tailX sa) (tailY sa) sb /\
    step (Pass [KEY_LEFT] true) sa g = Some (sa', ga') /\
    step (Pass [KEY_LEFT] true) sb g = Some (sb', gb') /\
    (score sa', nTail sa', headX sa', headY sa') = (10, 1, 19, 10) /\
    (score sb', nTail sb', headX sb', headY sb') = (10, 1, 19, 10) /\
    (foodX sa', foodY sa') = (21, 10) /\
    (foodX sb', foodY sb') = (4, 4) /\
    Draw sa' = Some fa /\ Draw sb' = Some fb /\
    segments_drawn fa = [] /\
    segments_drawn fb = [(21, 10)].
Proof.
  eexists _, _, _, _, _, _, _, _, _.
  split; [vm_compute; reflexivity|].
  split; [vm_compute; reflexivity|].
  split; [reflexivity|]. split; [reflexivity|].
  split; [vm_compute; reflexivity|].
  split; [vm_compute; reflexivity|].
  split; [reflexivity|]. split; [reflexivity|].
  split; [reflexivity|]. split; [reflexivity|].
  split; [vm_compute; reflexivity|].
  split; [vm_compute; reflexivity|].
  split; vm_compute; reflexivity.
Qed.

(** *** The first playthrough keeps the head off the tail *)

Lemma advance_fresh_slots s s1 :
  wf s -> nTail s <= TAIL_CAP -> fresh_slots s -> advance s = Some s1 ->
  fresh_slots s1.
Proof.
  intros Hwf Hn Hfresh Hadv.
  destruct (advance_spec s Hwf Hn) as (s1' & Hadv' & _ & Hsame & _ & Hpos & Hzero).
  rewrite Hadv in Hadv'. injection Hadv' as <-.
  destruct Hsame as (_ & _ & _ & _ & HnT & _).
  intros j Hj Hcap. rewrite HnT in Hj.
  destruct (decide (0 < nTail s)) as [Hlt|Hle].
  - destruct (Hpos Hlt j) as [-> ->]. unfold shifted.
    destruct (decide (j = 0%nat)); [lia|].
    destruct (decide (Z.of_nat j < nTail s)); [lia|].
    apply Hfresh; assumption.
  - destruct Hzero as [-> ->]; [lia|]. apply Hfresh; assumption.
Qed.

Lemma Input_first_inv pending s :
  first_inv s -> gameOver s = 0 ->
  let s0 := (Input pending s).1 in
  wf s0 /\ head_on_board s0 /\ fresh_slots s0 /\
  ~ on_tail s0 (headX s0) (headY s0).
Proof.
  intros (Hwf & Hhead & Hfresh & Hoff) Hgo s0.
  destruct (Input_frame pending s) as (_ & Ehx & Ehy & _ & _ & Etx & Ety & En).
  fold s0 in Ehx, Ehy, Etx, Ety, En.
  unfold wf, head_on_board, fresh_slots, on_tail, segment_at in *.
  rewrite Ehx, Ehy, Etx, Ety, En. auto.
Qed.

Lemma pass_first_inv pending due s g s' g' :
  first_inv s -> step (Pass pending due) s g = Some (s', g') ->
  first_inv s' /\
  (~ on_tail s' (headX s') (headY s') \/
   (due = true /\ crashed (Input pending s).1 s')).
Proof.
  intros Hinv H. apply step_Pass in H as [Hgo H].
  destruct (Input_first_inv pending s Hinv Hgo) as (Hwf & Hhead & Hfresh & Hoff).
  clear Hinv. set (s0 := (Input pending s).1) in *. clearbody s0.
  assert (forall t, wf t -> head_on_board t -> fresh_slots t ->
                    ~ on_tail t (headX t) (headY t) ->
                    first_inv t /\
                    (~ on_tail t (headX t) (headY t) \/
                     (due = true /\ crashed s0 t))) as Hkeep.
  { intros t H1 H2 H3 H4. split; [|now left].
    split; [exact H1|]. split; [exact H2|]. split; [exact H3|]. intros _. exact H4. }
  destruct due; [|injection H as -> _; now apply Hkeep].
  destruct (decide (dir s0 = STOP)) as [Hd|Hd].
  { rewrite Logic_STOP in H by exact Hd. injection H as -> _. now apply Hkeep. }
  destruct (decide (nTail s0 <= TAIL_CAP)) as [Hn|Hn].
  2:{ unfold Logic in H. destruct (decide _) as [|_]; [contradiction|].
      destruct (newHead s0). rewrite advance_overflow in H by lia. discriminate. }
  destruct (Logic_cases s0 g Hwf Hn Hd) as (s1 & Hadv & Hcases).
  pose proof (advance_fresh_slots s0 s1 Hwf Hn Hfresh Hadv) as Hfresh1.
  destruct (advance_spec s0 Hwf Hn) as (s1' & Hadv' & Hwf1 & Hsame & Hnew & _).
  rewrite Hadv in Hadv'. injection Hadv' as <-.
  assert (head_on_board s1) as Hhead1.
  { pose proof (newHead_range s0) as Hr. rewrite <- Hnew in Hr. exact Hr. }
  destruct Hcases as [[Hon HL]|[(Hfree & _ & HL)|(Hfree & _ & HL)]];
    rewrite HL in H.
  - (* collision *)
    injection H as <- _. split.
    + split; [exact Hwf1|]. split; [exact Hhead1|]. split; [exact Hfresh1|].
      cbn [set_gameOver gameOver]. discriminate.
    + right. split; [reflexivity|]. exists s1. now repeat split.
  - (* food eaten: the slot just counted holds (0, 0) *)
    apply PlaceFood_frame in H as [p ->]. apply Hkeep.
    + exact Hwf1.
    + exact Hhead1.
    + intros j Hj Hcap. apply Hfresh1; [|exact Hcap].
      cbn [set_food set_foodX set_foodY set_nTail set_score nTail] in Hj.
      destruct Hsame as (_ & _ & _ & _ & HnT & _). lia.
    + intros (j & Hj & Hx & Hy).
      cbn [set_food set_foodX set_foodY set_nTail set_score
           nTail tailX tailY headX headY] in Hj, Hx, Hy.
      destruct Hsame as (_ & _ & _ & _ & HnT & _).
      destruct (decide (j < nTail s1)) as [Hlt|Hge].
      * apply Hfree. exists j. split; [lia|]. split; [exact Hx|exact Hy].
      * destruct (decide (Z.to_nat j < Z.to_nat TAIL_CAP)%nat) as [Hin|Hout].
        -- destruct (Hfresh1 (Z.to_nat j)) as [Hx0 _]; [lia|exact Hin|].
           rewrite Hx0 in Hx. injection Hx as Hx. destruct Hhead1. lia.
        -- destruct Hwf1 as [Hlen _].
           rewrite lookup_ge_None_2 in Hx by lia. discriminate.
  - injection H as <- _. now apply Hkeep.
Qed.

Lemma Setup_first_inv seed s g :
  Setup seed initial_state = Some (s, g) -> first_inv s.
Proof.
  intros H. apply Setup_frame in H as (_ & _ & _ & HnT & Hhx & Hhy & Htx & Hty).
  split; [|split; [|split]].
  - destruct wf_initial. split; congruence.
  - unfold head_on_board. rewrite Hhx, Hhy. zlia.
  - intros j _ Hj. rewrite Htx, Hty. cbn [initial_state tailX tailY].
    split; apply lookup_replicate_2; exact Hj.
  - intros _ (j & Hj & _). lia.
Qed.

Lemma reachable1_first_inv s g : reachable1 s g -> first_inv s.
Proof.
  induction 1 as [seed s g H|pending due s g s' g' _ IH H].
  - eapply Setup_first_inv. exact H.
  - eapply pass_first_inv; eassumption.
Qed.

(** X15. Throughout the first playthrough the head is on no counted tail
    segment while the game is on, and a pass of the game loop leaves it on
    one only when the collision check of that very tick has fired. *)
Theorem first_playthrough_head_off_tail s g :
  reachable1 s g ->
  (gameOver s = 0 -> ~ on_tail s (headX s) (headY s)) /\
  (forall pending due s' g',
     step (Pass pending due) s g = Some (s', g') ->
     ~ on_tail s' (headX s') (headY s') \/
     (due = true /\ crashed (Input pending s).1 s')).
Proof.
  intros Hr. pose proof (reachable1_first_inv s g Hr) as Hinv.
  split; [apply Hinv|].
  intros pending due s' g' H.
  eapply pass_first_inv; eassumption.
Qed.

(** *** What a stale slot cannot change *)

Lemma on_tail_agree s t x y :
  nTail t = nTail s ->
  agree_below (nTail s) (tailX s) (tailX t) ->
  agree_below (nTail s) (tailY s) (tailY t) ->
  on_tail s x y -> on_tail t x y.
Proof.
  intros En Hx Hy (j & Hj & Hsx & Hsy). exists j. split; [lia|].
  unfold segment_at in *. rewrite <- Hx, <- Hy by lia. now split.
Qed.

Lemma advance_agree s t s1 t1 :
  wf s -> wf t -> nTail s <= TAIL_CAP -> same_but_tail s t ->
  agree_below (nTail s - 1) (tailX s) (tailX t) ->
  agree_below (nTail s - 1) (tailY s) (tailY t) ->
  advance s = Some s1 -> advance t = Some t1 ->
  same_but_tail s1 t1 /\
  agree_below (nTail s) (tailX s1) (tailX t1) /\
  agree_below (nTail s) (tailY s1) (tailY t1).
Proof.
  intros Hwfs Hwft Hn Hst Hx Hy Hs Ht.
  assert (nTail t = nTail s /\ headX t = headX s /\ headY t = headY s
          /\ newHead t = newHead s) as (En & Ehx & Ehy & Enew).
  { rewrite Hst. now repeat split. }
  destruct (advance_spec s Hwfs Hn) as (s1' & Hs' & _ & _ & _ & Hps & _).
  destruct (advance_spec t Hwft) as (t1' & Ht' & _ & _ & _ & Hpt & _); [lia|].
  rewrite Hs in Hs'. injection Hs' as <-. rewrite Ht in Ht'. injection Ht' as <-.
  split.
  - unfold advance in Hs, Ht. rewrite Enew in Ht. destruct (newHead s) as [nx ny].
    destruct (shift_tail s) as [s0|] eqn:Es; cbn [mbind option_bind] in Hs; [|discriminate].
    destruct (shift_tail t) as [t0|] eqn:Et; cbn [mbind option_bind] in Ht; [|discriminate].
    apply shift_tail_frame in Es as (sx & sy & -> & _).
    apply shift_tail_frame in Et as (ux & uy & -> & _).
    injection Hs as <-. injection Ht as <-. unfold same_but_tail.
    rewrite Hst. reflexivity.
  - split; intros j Hj.
    + destruct (Hps ltac:(lia) j) as [-> _]. destruct (Hpt ltac:(lia) j) as [-> _].
      unfold shifted. rewrite En, Ehx.
      destruct (decide (j = 0%nat)); [reflexivity|].
      destruct (decide _); [|lia]. apply Hx. lia.
    + destruct (Hps ltac:(lia) j) as [_ ->]. destruct (Hpt ltac:(lia) j) as [_ ->].
      unfold shifted. rewrite En, Ehy.
      destruct (decide (j = 0%nat)); [reflexivity|].
      destruct (decide _); [|lia]. apply Hy. lia.
Qed.

(** X16. The contents of the last counted slot, and of every slot beyond it,
    never reach the collision check: the shift of the next tick overwrites
    that slot first.  Two states that differ there only end their tick
    with the same [gameOver], score, tail length, head and direction. *)
Theorem stale_slot_hidden_from_collision s t g :
  wf s -> wf t -> nTail s < TAIL_CAP -> same_but_tail s t ->
  agree_below (nTail s - 1) (tailX s) (tailX t) ->
  agree_below (nTail s - 1) (tailY s) (tailY t) ->
  exists s' gs t' gt,
    Logic s g = Some (s', gs) /\ Logic t g = Some (t', gt) /\
    gameOver t' = gameOver s' /\ score t' = score s' /\ nTail t' = nTail s' /\
    headX t' = headX s' /\ headY t' = headY s' /\ dir t' = dir s'.
Proof.
  intros Hwfs Hwft Hn Hst Hx Hy.
  assert (nTail t = nTail s /\ dir t = dir s /\ score t = score s /\
          foodX t = foodX s /\ foodY t = foodY s /\ newHead t = newHead s)
    as (En & Ed & Esc & Efx & Efy & Enew).
  { rewrite Hst. now repeat split. }
  destruct (Logic_total s g Hwfs Hn) as (s' & gs & HLs).
  destruct (Logic_total t g Hwft) as (t' & gt & HLt); [lia|].
  exists s', gs, t', gt. split; [exact HLs|]. split; [exact HLt|].
  destruct (decide (dir s = STOP)) as [Hd|Hd].
  { rewrite Logic_STOP in HLs by exact Hd.
    rewrite Logic_STOP in HLt by congruence.
    injection HLs as <- _. injection HLt as <- _. rewrite Hst. now repeat split. }
  destruct (Logic_cases s g Hwfs) as (s1 & Hs & Hcs); [lia|exact Hd|].
  destruct (Logic_cases t g Hwft) as (t1 & Ht & Hct); [lia|congruence|].
  destruct (advance_agree s t s1 t1) as (Hst1 & Hx1 & Hy1); try assumption; [lia|].
  pose proof (advance_frame _ _ Hs) as ((_ & _ & _ & _ & En1 & _) & _).
  assert (on_tail s1 (headX s1) (headY s1) <-> on_tail t1 (headX t1) (headY t1)) as Hon.
  { assert (nTail t1 = nTail s1 /\ headX t1 = headX s1 /\ headY t1 = headY s1)
      as (E1 & E2 & E3) by (rewrite Hst1; now repeat split).
    rewrite E2, E3. rewrite <- En1 in Hx1, Hy1. split; apply on_tail_agree.
    - exact E1.
    - exact Hx1.
    - exact Hy1.
    - symmetry. exact E1.
    - intros j Hj. symmetry. apply Hx1. lia.
    - intros j Hj. symmetry. apply Hy1. lia. }
  rewrite Enew, Efx, Efy, Esc, En in Hct.
  destruct Hcs as [[Hons Es]|[(Hoff & Heat & Es)|(Hoff & Heat & Es)]];
    destruct Hct as [[Hont Et]|[(Hofft & Heatt & Et)|(Hofft & Heatt & Et)]];
    try tauto; try contradiction;
    rewrite Es in HLs; rewrite Et in HLt.
  - injection HLs as <- _. injection HLt as <- _. rewrite Hst1. now repeat split.
  - apply PlaceFood_frame in HLs as [p ->]. apply PlaceFood_frame in HLt as [q ->].
    rewrite Hst1. now repeat split.
  - injection HLs as <- _. injection HLt as <- _. rewrite Hst1. now repeat split.
Qed.

(** ** The integers stay small *)

(** The embedding computes in [Z].  That is faithful to the C program
    because no [int] of a reachable state, and no intermediate result
    computed from one, comes anywhere near the limits of [int]. *)

Lemma sample_range g k :
  - WIDTH < (sample g k).1 <= WIDTH /\ - HEIGHT < (sample g k).2 <= HEIGHT.
Proof.
  unfold sample. cbn [fst snd].
  pose proof (Z.rem_bound_abs (gen g (pos g + 2 * k)%nat) WIDTH) as Hx.
  pose proof (Z.rem_bound_abs (gen g (pos g + 2 * k + 1)%nat) HEIGHT) as Hy.
  unfold WIDTH, HEIGHT in *. lia.
Qed.

Lemma shift_loop_Forall (P Q : Z -> Prop) n tx ty tx' ty' :
  Forall P tx -> Forall Q ty -> shift_loop n tx ty = Some (tx', ty') ->
  Forall P tx' /\ Forall Q ty'.
Proof.
  revert tx ty. induction n as [|n IH]; intros tx ty Hx Hy H.
  - injection H as <- <-. now split.
  - cbn [shift_loop] in H. unfold aget, aset in H.
    destruct (in_bounds (Z.of_nat (S n) - 1)); [|discriminate].
    destruct (tx !! _) as [vx|] eqn:Ex; cbn [mbind option_bind] in H; [|discriminate].
    destruct (in_bounds (Z.of_nat (S n))); cbn [mbind option_bind] in H; [|discriminate].
    destruct (ty !! _) as [vy|] eqn:Ey; cbn [mbind option_bind] in H; [|discriminate].
    eapply IH; [| |exact H]; apply Forall_insert; try assumption.
    + eapply Forall_lookup_1; eassumption.
    + eapply Forall_lookup_1; eassumption.
Qed.

Lemma advance_small s s1 :
  small s -> advance s = Some s1 -> small s1 /\ nTail s <= TAIL_CAP.
Proof.
  intros Hs Hadv.
  destruct (decide (nTail s <= TAIL_CAP)) as [Hcap|Hcap];
    [|rewrite advance_overflow in Hadv by lia; discriminate].
  split; [|exact Hcap].
  pose proof (newHead_range s) as Hnew.
  unfold advance, shift_tail in Hadv. destruct (newHead s) as [nx ny].
  destruct (nTail s >? 0).
  - destruct (shift_loop _ _ _) as [[tx ty]|] eqn:E;
      cbn [mbind option_bind fst snd] in Hadv; [|discriminate].
    unfold aset in Hadv.
    destruct (in_bounds 0); cbn [mbind option_bind] in Hadv; [|discriminate].
    injection Hadv as <-.
    assert (Forall (fun v => 0 <= v <= WIDTH) tx /\
            Forall (fun v => 0 <= v <= HEIGHT) ty) as [Hx' Hy'].
    { eapply shift_loop_Forall; [| |exact E]; apply Hs. }
    small_tac; apply Forall_insert; assumption || lia.
  - cbn [mbind option_bind] in Hadv. injection Hadv as <-. small_tac.
Qed.

Lemma Logic_small s g s' g' : small s -> Logic s g = Some (s', g') -> small s'.
Proof.
  intros Hs H. unfold Logic in H. destruct (decide (dir s = STOP)).
  - injection H as <- _. exact Hs.
  - destruct (newHead s) as [nx ny].
    destruct (advance s) as [s1|] eqn:Eadv; cbn [mbind option_bind] in H; [|discriminate].
    pose proof (advance_frame _ _ Eadv) as ((_ & _ & _ & _ & HnT & _) & _).
    apply (advance_small s s1 Hs) in Eadv as [Hs1 Hcap].
    destruct (selfCollides s1) as [[|]|]; cbn [mbind option_bind] in H; [| |discriminate].
    + injection H as <- _. small_tac.
    + destruct ((nx =? foodX s) && (ny =? foodY s)).
      * apply PlaceFood_frame in H as [k ->].
        pose proof (sample_range g k) as Hk. small_tac.
      * injection H as <- _. exact Hs1.
Qed.

Lemma Input_key_small ch s : small s -> small (Input_key ch s).
Proof.
  intros Hs. unfold Input_key.
  repeat match goal with
         | |- context [if ?c then _ else _] => destruct c
         end; small_tac.
Qed.

Lemma Input_small pending s : small s -> small (Input pending s).1.
Proof.
  revert s. induction pending as [|k rest IH]; intros s Hs; cbn [Input]; [exact Hs|].
  destruct (k =? ERR); [exact Hs|]. apply IH, Input_key_small, Hs.
Qed.

Lemma Setup_small seed s s' g' :
  Forall (fun v => 0 <= v <= WIDTH) (tailX s) ->
  Forall (fun v => 0 <= v <= HEIGHT) (tailY s) ->
  Setup seed s = Some (s', g') -> small s'.
Proof.
  intros Hx Hy H. unfold Setup in H. apply PlaceFood_frame in H as [k ->].
  pose proof (sample_range (srand seed) k) as Hk.
  change (Z.quot WIDTH 2) with 20. change (Z.quot HEIGHT 2) with 10.
  small_tac; zlia.
Qed.

Lemma reachable_small s g :
  reachable s g -> small s /\ nTail s * 10 = score s.
Proof.
  induction 1 as [seed s g H|e s g s' g' _ [IH IHsc] H].
  - split; [|eapply Setup_score; exact H].
    eapply Setup_small; [| |exact H];
      cbn [initial_state tailX tailY]; apply Forall_replicate; zlia.
  - split; [|eapply step_score; eassumption].
    destruct e as [pending due|seed].
    + apply step_Pass in H as [_ H]. destruct due.
      * eapply Logic_small; [|exact H]. apply Input_small, IH.
      * injection H as -> _. apply Input_small, IH.
    + apply step_Restart in H as [_ H].
      destruct IH as (_ & _ & _ & _ & Hx & Hy). eapply Setup_small; eassumption.
Qed.

(** X17. Every [int] of a reachable state is far inside the range of [int],
    and so are the results of the additions and subtractions the next tick
    can perform on them. *)
Theorem reachable_int_range s g :
  reachable s g ->
  let fits v := - 1010 <= v <= 1010 in
  fits (gameOver s) /\ fits (score s) /\ fits (nTail s) /\
  fits (headX s) /\ fits (headY s) /\ fits (foodX s) /\ fits (foodY s) /\
  Forall fits (tailX s) /\ Forall fits (tailY s) /\
  1010 + 10 <= INT_MAX.
Proof.
  intros Hr. destruct (reachable_small s g Hr) as [Hs Hsc].
  assert (forall hi l, 0 <= hi <= 1010 -> Forall (fun v => 0 <= v <= hi) l ->
                       Forall (fun v => - 1010 <= v <= 1010) l) as Hw.
  { intros hi l Hhi Hl. eapply Forall_impl; [exact Hl|].
    intros v Hv. cbv beta in Hv. lia. }
  cbv zeta. unfold small, head_on_board in Hs.
  splits; try zlia.
  - apply (Hw WIDTH); [zlia|apply Hs].
  - apply (Hw HEIGHT); [zlia|apply Hs].
  - unfold INT_MAX. lia.
Qed.

(** * Further properties of the program *)

(** ** The body follows the head *)

Lemma follows_weaken s trail n m : m <= n -> follows s trail n -> follows s trail m.
Proof. intros Hle H j Hj. apply H. lia. Qed.

Lemma follows_same_tail s s' trail n :
  tailX s' = tailX s -> tailY s' = tailY s ->
  follows s trail n -> follows s' trail n.
Proof.
  intros Ex Ey H j Hj. destruct (H j Hj) as (p & Hp & Hseg).
  exists p. split; [exact Hp|]. unfold segment_at in *. now rewrite Ex, Ey.
Qed.

Lemma tick_extends_trail s g s' g' trail :
  wf s -> dir s <> STOP -> follows s trail (nTail s - 1) ->
  Logic s g = Some (s', g') ->
  follows s' ((headX s, headY s) :: trail) (nTail s).
Proof.
  intros Hwf Hd Hfol HL.
  destruct (Logic_moving s g s' g' Hd HL) as (s1 & Hadv & Ex & Ey & _).
  destruct (decide (nTail s <= TAIL_CAP)) as [Hn|Hn];
    [|rewrite advance_overflow in Hadv by lia; discriminate].
  destruct (advance_spec s Hwf Hn) as (s1' & Hadv' & _ & _ & _ & Hpos & _).
  rewrite Hadv in Hadv'. injection Hadv' as <-.
  apply (follows_same_tail s1); [exact Ex|exact Ey|].
  intros j Hj. destruct (Hpos ltac:(lia) j) as [Hx Hy].
  unfold segment_at. rewrite Nat2Z.id, Hx, Hy. unfold shifted.
  destruct j as [|i].
  - exists (headX s, headY s). now repeat split.
  - destruct (decide (S i = 0%nat)); [lia|].
    destruct (decide (Z.of_nat (S i) < nTail s)); [|lia].
    destruct (Hfol i) as (p & Hp & Hseg); [lia|].
    exists p. split; [exact Hp|].
    unfold segment_at in Hseg. rewrite Nat2Z.id in Hseg.
    replace (S i - 1)%nat with i by lia. exact Hseg.
Qed.

Lemma step_follows e s g s' g' trail :
  wf s -> follows s trail (nTail s - 1) -> step e s g = Some (s', g') ->
  follows s' (step_trail e s trail) (nTail s' - 1).
Proof.
  intros Hwf Hfol H. destruct e as [pending due|seed].
  - apply step_Pass in H as [_ H].
    destruct (Input_frame pending s) as (_ & Ehx & Ehy & _ & _ & Etx & Ety & En).
    assert (wf (Input pending s).1) as Hwf0
      by (destruct Hwf; split; congruence).
    assert (follows (Input pending s).1 trail (nTail (Input pending s).1 - 1)) as Hfol0.
    { rewrite En. now apply (follows_same_tail s). }
    destruct due; cbn [step_trail].
    + destruct (decide (dir (Input pending s).1 = STOP)) as [Hd|Hd].
      * rewrite Logic_STOP in H by exact Hd. injection H as <- _. exact Hfol0.
      * pose proof (tick_extends_trail _ _ _ _ _ Hwf0 Hd Hfol0 H) as Hnew.
        rewrite Ehx, Ehy in Hnew.
        apply Logic_frame in H as (_ & _ & _ & _ & Hgrow).
        eapply follows_weaken; [|exact Hnew]. lia.
    + injection H as -> _. exact Hfol0.
  - apply step_Restart in H as [_ H].
    apply Setup_frame in H as (_ & _ & _ & HnT & _).
    intros j Hj. lia.
Qed.

Lemma run_trail_follows es s g trail s' g' trail' :
  wf s -> follows s trail (nTail s - 1) ->
  run_trail es s g trail = Some (s', g', trail') ->
  reachable s g ->
  follows s' trail' (nTail s' - 1) /\ reachable s' g'.
Proof.
  revert s g trail. induction es as [|e es IH]; intros s g trail Hwf Hfol H Hr.
  - injection H as <- <- <-. now split.
  - cbn [run_trail] in H. destruct (step e s g) as [[s1 g1]|] eqn:E;
      cbn [mbind option_bind fst snd] in H; [|discriminate].
    eapply IH; [| |exact H|].
    + eapply step_wf; eassumption.
    + eapply step_follows; eassumption.
    + eapply reach_step; eassumption.
Qed.

(** X1. In every run of the program, each counted tail segment except
    possibly the last lies on the path of the head: segment [j] is on the
    cell the head left [j + 1] moves ago.  After one more tick that moves
    the snake, this holds of every segment that was counted before that
    tick. *)
Theorem body_follows_head seed es s g trail :
  play_trail seed es = Some (s, g, trail) ->
  follows s trail (nTail s - 1) /\
  (forall pending s' g',
     step (Pass pending true) s g = Some (s', g') ->
     dir (Input pending s).1 <> STOP ->
     follows s' ((headX s, headY s) :: trail) (nTail s)).
Proof.
  unfold play_trail. intros H.
  destruct (Setup seed initial_state) as [[s0 g0]|] eqn:E;
    cbn [mbind option_bind fst snd] in H; [|discriminate].
  pose proof (Setup_frame _ _ _ _ E) as (_ & _ & _ & HnT & _).
  destruct (run_trail_follows es s0 g0 [] s g trail) as [Hfol Hr].
  - eapply reachable_wf, reach_Setup, E.
  - intros j Hj. lia.
  - exact H.
  - eapply reach_Setup, E.
  - split; [exact Hfol|]. intros pending s' g' Hstep Hd.
    apply step_Pass in Hstep as [_ HL].
    destruct (Input_frame pending s) as (_ & Ehx & Ehy & _ & _ & Etx & Ety & En).
    rewrite <- Ehx, <- Ehy, <- En.
    eapply tick_extends_trail; [| |  |exact HL].
    + pose proof (reachable_wf s g Hr) as [? ?]. split; congruence.
    + exact Hd.
    + rewrite En. now apply (follows_same_tail s).
Qed.

(** Three moves to the right, eating on the first two: the head is on
    (23, 10), the trail is (22, 10), (21, 10), (20, 10), and the two
    segments are on (22, 10) and (21, 10). *)
Lemma body_follows_head_witness :
  exists s g trail,
    play_trail seed_trap [Pass [chr "d"] true; Pass [] true; Pass [] true]
      = Some (s, g, trail) /\
    nTail s = 2 /\ trail = [(22, 10); (21, 10); (20, 10)] /\
    follows s trail (nTail s - 1).
Proof.
  eexists _, _, _. split; [vm_compute; reflexivity|].
  split; [reflexivity|]. split; [reflexivity|].
  eapply (body_follows_head seed_trap
            [Pass [chr "d"] true; Pass [] true; Pass [] true]).
  vm_compute. reflexivity.
Defined.

(** ** Keys that quit, keys that do nothing *)

Lemma Input_key_gameOver ch s :
  gameOver (Input_key ch s) = if is_quit ch then 1 else gameOver s.
Proof.
  unfold Input_key, is_quit.
  change (chr "a") with 97. change (chr "A") with 65.
  change (chr "d") with 100. change (chr "D") with 68.
  change (chr "w") with 119. change (chr "W") with 87.
  change (chr "s") with 115. change (chr "S") with 83.
  change (chr "q") with 113. change (chr "Q") with 81.
  unfold KEY_LEFT, KEY_RIGHT, KEY_UP, KEY_DOWN.
  repeat match goal with
         | |- context [ch =? ?v] => destruct (Z.eqb_spec ch v); try lia
         end; cbn [orb];
    repeat match goal with
           | |- context [if decide ?P then _ else _] => destruct (decide P)
           end; reflexivity.
Qed.

Lemma Input_key_unbound ch s : is_bound ch = false -> Input_key ch s = s.
Proof.
  unfold is_bound, Input_key. cbn [existsb]. intros H.
  repeat (apply orb_false_iff in H as [?E H]).
  repeat match goal with
         | E : (_ =? _) = false |- _ => rewrite E; clear E
         end.
  reflexivity.
Qed.

Lemma Input_cons k rest s :
  k <> ERR -> Input (k :: rest) s = Input rest (Input_key k s).
Proof. intros Hk. cbn [Input]. destruct (Z.eqb_spec k ERR); [contradiction|reflexivity]. Qed.

(** X2. A [q] or [Q] anywhere among the pending keys ends the game,
    whatever keys come before or after it in the same poll; without one
    the poll leaves [gameOver] as it was. *)
Theorem quit_key_anywhere_ends_the_game pending s :
  Forall (fun k => k <> ERR) pending ->
  gameOver (Input pending s).1 = if existsb is_quit pending then 1 else gameOver s.
Proof.
  intros Hp. revert s. induction Hp as [|k rest Hk _ IH]; intros s; [reflexivity|].
  rewrite Input_cons by exact Hk. rewrite IH, Input_key_gameOver.
  cbn [existsb]. destruct (is_quit k), (existsb is_quit rest); reflexivity.
Qed.

Lemma quit_key_anywhere_ends_the_game_witness :
  gameOver (Input [KEY_UP; chr "q"; KEY_LEFT; chr "x"] initial_state).1 = 1.
Proof.
  rewrite quit_key_anywhere_ends_the_game; [reflexivity|].
  repeat constructor; discriminate.
Defined.

Lemma Input_dir_moving pending s :
  dir s <> STOP -> dir (Input pending s).1 <> STOP.
Proof.
  revert s. induction pending as [|k rest IH]; intros s Hd; cbn [Input]; [exact Hd|].
  destruct (k =? ERR); [exact Hd|]. apply IH.
  unfold Input_key.
  repeat match goal with
         | |- context [if ?c then _ else _] => destruct c
         end; cbn [set_dir set_gameOver dir]; congruence.
Qed.

(** X3. Once the snake moves it never stops: no pass of the game loop
    brings the direction back to [STOP]; only [Setup] does. *)
Theorem a_moving_snake_never_stops es s g s' g' :
  Forall (fun e => exists pending due, e = Pass pending due) es ->
  run es s g = Some (s', g') ->
  dir s <> STOP -> dir s' <> STOP.
Proof.
  intros Hes. revert s g. induction Hes as [|e es (pending & due & ->) _ IH];
    intros s g H Hd.
  - injection H as <- _. exact Hd.
  - cbn [run] in H. destruct (step _ s g) as [[s1 g1]|] eqn:E;
      cbn [mbind option_bind fst snd] in H; [|discriminate].
    apply (IH s1 g1 H). apply step_Pass in E as [_ E].
    pose proof (Input_dir_moving pending s Hd) as Hd0. destruct due.
    + apply Logic_frame in E as (-> & _). exact Hd0.
    + injection E as -> _. exact Hd0.
Qed.

Lemma a_moving_snake_never_stops_witness :
  exists s g,
    play seed_east [Pass [chr "d"] true] = Some (s, g) /\
    exists s' g',
      run [Pass [chr "x"] true; Pass [KEY_LEFT; KEY_UP] true; Pass [] true] s g
        = Some (s', g') /\
      dir s' <> STOP.
Proof.
  eexists _, _. split; [vm_compute; reflexivity|].
  match goal with
  | |- exists s' g', run ?es ?s ?g = _ /\ _ =>
      destruct (run es s g) as [[s' g']|] eqn:E;
        [|vm_compute in E; discriminate];
        exists s', g'; split; [reflexivity|];
        apply (a_moving_snake_never_stops es s g s' g')
  end.
  - repeat constructor; eexists _, _; reflexivity.
  - exact E.
  - discriminate.
Defined.

Lemma Input_unbound pending s :
  Forall (fun k => is_bound k = false) pending -> (Input pending s).1 = s.
Proof.
  intros Hp. revert s. induction Hp as [|k rest Hk _ IH]; intros s; [reflexivity|].
  cbn [Input]. destruct (k =? ERR); [reflexivity|].
  rewrite Input_key_unbound by exact Hk. apply IH.
Qed.

(** The calls of the tail loop of [Draw]: one ["o"] for every counted
    segment that is on the board. *)
Lemma draw_tail_spec n i tx ty :
  length tx = Z.to_nat TAIL_CAP -> length ty = Z.to_nat TAIL_CAP ->
  0 <= i -> i + Z.of_nat n <= TAIL_CAP ->
  exists tl,
    draw_tail n i tx ty = Some tl /\
    forall k, k ∈ tl <->
      exists j vx vy,
        i <= j < i + Z.of_nat n /\
        tx !! Z.to_nat j = Some vx /\ ty !! Z.to_nat j = Some vy /\
        (1 <= vx <= WIDTH /\ 1 <= vy <= HEIGHT) /\
        k = mvprintw vy vx "o" [].
Proof.
  intros Hx Hy. revert i. induction n as [|n IH]; intros i Hi Hn.
  - exists []. split; [reflexivity|]. intros k. split.
    + intros Hk. inversion Hk.
    + intros (j & _ & _ & Hj & _). lia.
  - cbn [draw_tail]. unfold slot_on_board.
    destruct (aget_in tx i Hx) as (vx & -> & Hvx); [lia|].
    destruct (aget_in ty i Hy) as (vy & -> & Hvy); [lia|].
    cbn [mbind option_bind].
    destruct (IH (i + 1)) as (rest & -> & Hrest); [lia|lia|].
    assert (forall here b,
              (b = true <-> 1 <= vx <= WIDTH /\ 1 <= vy <= HEIGHT) ->
              here = (if b then [mvprintw vy vx "o" []] else []) ->
              forall k, k ∈ here ++ rest <->
                exists j vx vy,
                  i <= j < i + Z.of_nat (S n) /\
                  tx !! Z.to_nat j = Some vx /\ ty !! Z.to_nat j = Some vy /\
                  (1 <= vx <= WIDTH /\ 1 <= vy <= HEIGHT) /\
                  k = mvprintw vy vx "o" []) as Hmem.
    { intros here b Hb -> k. rewrite elem_of_app, Hrest. split.
      - intros [Hk|(j & wx & wy & Hj & H)].
        + destruct b; [|inversion Hk]. apply list_elem_of_singleton in Hk.
          exists i, vx, vy. split; [lia|]. repeat split; try assumption;
            apply Hb; reflexivity.
        + exists j, wx, wy. split; [lia|exact H].
      - intros (j & wx & wy & Hj & Hjx & Hjy & Hon & ->).
        destruct (Z.eq_dec j i) as [->|Hne].
        + left. rewrite Hvx in Hjx. rewrite Hvy in Hjy.
          injection Hjx as <-. injection Hjy as <-.
          replace b with true by (symmetry; apply Hb; exact Hon).
          apply list_elem_of_singleton. reflexivity.
        + right. exists j, wx, wy. split; [lia|]. now repeat split. }
    destruct (vx >=? 1) eqn:E1; [destruct (vx <=? WIDTH) eqn:E2;
      [destruct (vy >=? 1) eqn:E3; [destruct (vy <=? HEIGHT) eqn:E4|]|]|];
      cbn [mbind option_bind]; eexists; (split; [reflexivity|]).
    + apply (Hmem _ true); [|reflexivity]. split; [lia|reflexivity].
    + apply (Hmem _ false); [|reflexivity]. split; [discriminate|lia].
    + apply (Hmem _ false); [|reflexivity]. split; [discriminate|lia].
    + apply (Hmem _ false); [|reflexivity]. split; [discriminate|lia].
    + apply (Hmem _ false); [|reflexivity]. split; [discriminate|lia].
Qed.

(** [Draw] reads no slot beyond the counted ones. *)
Lemma Draw_total s :
  wf s -> nTail s <= TAIL_CAP -> exists frame, Draw s = Some frame.
Proof.
  intros [Hx Hy] Hn. unfold Draw.
  destruct (draw_tail_spec (Z.to_nat (nTail s)) 0 (tailX s) (tailY s))
    as (tl & -> & _); [exact Hx|exact Hy|lia|zlia|].
  cbn [mbind option_bind]. eauto.
Qed.

(** X4. Before the first direction key nothing happens: with the
    direction [STOP], passes whose pending keys are all unbound leave
    every global as it is, however many ticks pass. *)
Theorem idle_until_a_key_is_bound es s g :
  dir s = STOP -> gameOver s = 0 -> wf s -> nTail s <= TAIL_CAP ->
  Forall (fun e => exists pending due,
            e = Pass pending due /\ Forall (fun k => is_bound k = false) pending) es ->
  run es s g = Some (s, g).
Proof.
  intros Hd Hgo Hwf Hn Hes.
  induction Hes as [|e es (pending & due & -> & Hp) _ IH]; [reflexivity|].
  cbn [run step]. unfold loop_pass. rewrite Hgo. cbn [Z.eqb].
  rewrite (Input_unbound pending s Hp). destruct due.
  - rewrite Logic_STOP by exact Hd. cbn [mbind option_bind fst snd].
    destruct (Draw_total s Hwf Hn) as [frame ->].
    cbn [mbind option_bind fst snd]. exact IH.
  - cbn [mbind option_bind fst snd]. exact IH.
Qed.

Lemma idle_until_a_key_is_bound_witness :
  exists s g,
    play seed_east [] = Some (s, g) /\
    run [Pass [chr "x"; 32] true; Pass [] true; Pass [chr "p"] false] s g
      = Some (s, g).
Proof.
  eexists _, _. split; [vm_compute; reflexivity|].
  apply idle_until_a_key_is_bound.
  - reflexivity.
  - reflexivity.
  - split; reflexivity.
  - vm_compute. discriminate.
  - repeat constructor; eexists _, _; (split; [reflexivity|]); repeat constructor.
Defined.

(** ** Where the food is put *)

Lemma sample_on_board g k :
  (forall n, 0 <= gen g n) ->
  1 <= (sample g k).1 <= WIDTH /\ 1 <= (sample g k).2 <= HEIGHT.
Proof.
  intros Hg. unfold sample. cbn [fst snd].
  pose proof (Z.rem_bound_pos (gen g (pos g + 2 * k)%nat) WIDTH (Hg _)) as Hx.
  pose proof (Z.rem_bound_pos (gen g (pos g + 2 * k + 1)%nat) HEIGHT (Hg _)) as Hy.
  unfold WIDTH, HEIGHT in *. lia.
Qed.

(** X5. Since [rand()] is never negative, [PlaceFood] puts the food on a
    cell of the board, [1 <= foodX <= WIDTH] and [1 <= foodY <= HEIGHT],
    also when the attempt cap cuts the search short; it changes no other
    global. *)
Theorem food_is_put_on_the_board s g s' g' :
  (forall n, 0 <= gen g n) ->
  PlaceFood s g = Some (s', g') ->
  food_on_board s' /\
  s' = set_foodY (foodY s') (set_foodX (foodX s') s).
Proof.
  intros Hg H. apply PlaceFood_frame in H as [k ->].
  split; [|reflexivity]. apply (sample_on_board g k Hg).
Qed.

Lemma food_is_put_on_the_board_witness :
  exists s' g',
    PlaceFood at_start (srand seed_head) = Some (s', g') /\
    food_on_board s'.
Proof.
  destruct (PlaceFood at_start (srand seed_head)) as [[s' g']|] eqn:E;
    [|vm_compute in E; discriminate].
  exists s', g'. split; [reflexivity|].
  apply (food_is_put_on_the_board at_start (srand seed_head) s' g'); [|exact E].
  intros n. cbn [srand gen]. unfold seed_head. destruct (Nat.even n); lia.
Defined.

(** With no counted segment the arrays are not read. *)
Lemma PlaceFood_loop_empty_tail fuel a s g tx ty :
  nTail s <= 0 ->
  PlaceFood_loop fuel a (set_tail tx ty s) g =
  (fun r : state * rng * Z => (set_tail tx ty r.1.1, r.1.2, r.2))
    <$> PlaceFood_loop fuel a s g.
Proof.
  intros Hn. revert a s g Hn. induction fuel as [|fuel IH]; intros a s g Hn;
    [reflexivity|].
  rewrite !PlaceFood_loop_step. cbv zeta.
  destruct (a + 1 >? WIDTH * HEIGHT); [reflexivity|].
  unfold isPositionOnSnake.
  cbn [set_food set_foodX set_foodY set_tail headX headY foodX foodY nTail tailX tailY].
  replace (Z.to_nat (nTail s)) with 0%nat by lia. cbn [tail_scan].
  destruct ((headX s =? (sample g 0).1) && (headY s =? (sample g 0).2));
    cbn [mbind option_bind].
  - apply (IH (a + 1) (set_food (sample g 0) s) (skip 2 g)). exact Hn.
  - reflexivity.
Qed.

(** The food is written before it is read. *)
Lemma PlaceFood_loop_old_food fuel a s g p :
  PlaceFood_loop fuel a (set_food p s) g = PlaceFood_loop fuel a s g.
Proof. destruct fuel; [reflexivity|]. rewrite !PlaceFood_loop_step. reflexivity. Qed.

(** X6. A restart begins as the first game did: [Setup] after any earlier
    play gives, for the same seed, the state [Setup] gives on the initial
    globals, except for the contents of the two tail arrays, which it
    leaves as they are. *)
Theorem restart_is_a_fresh_start_but_for_the_arrays seed s :
  exists s0 g0,
    Setup seed initial_state = Some (s0, g0) /\
    Setup seed s = Some (set_tail (tailX s) (tailY s) s0, g0) /\
    tailX s0 = tailX initial_state /\ tailY s0 = tailY initial_state.
Proof.
  destruct (Setup_total seed initial_state wf_initial) as (s0 & g0 & H0).
  exists s0, g0. split; [exact H0|]. split.
  - unfold Setup, PlaceFood, PlaceFood_attempts in *.
    match goal with
    | |- context [PlaceFood_loop _ _ ?t _] =>
        change t with (set_tail (tailX s) (tailY s)
                         (set_food (foodX s, foodY s) at_start))
    end.
    change (set_nTail 0 (set_score 0 (set_headY (Z.quot HEIGHT 2)
              (set_headX (Z.quot WIDTH 2)
                 (set_dir STOP (set_gameOver 0 initial_state))))))
      with at_start in H0.
    rewrite PlaceFood_loop_empty_tail by (vm_compute; discriminate).
    rewrite PlaceFood_loop_old_food.
    destruct (PlaceFood_loop _ _ at_start _) as [[[s1 g1] n]|];
      cbn [mbind option_bind fmap option_fmap option_map fst snd] in *;
      [|discriminate].
    injection H0 as <- <-. reflexivity.
  - apply Setup_frame in H0 as (_ & _ & _ & _ & _ & _ & Hx & Hy). now split.
Qed.

(** ** Ticks *)

(** A move takes the head to another cell, also across an edge. *)
Lemma newHead_elsewhere s :
  dir s <> STOP -> newHead s <> (headX s, headY s).
Proof.
  intros Hd. rewrite newHead_wrap. unfold wrap.
  destruct (dir s); [contradiction|..]; cbn [offset fst snd]; intros [= Hx Hy];
    repeat match goal with
           | H : context [if ?c then _ else _] |- _ => destruct c eqn:?
           end; zlia.
Qed.

(** X7. A snake with at most one segment cannot run into itself: whatever
    the direction and wherever the food, a tick on it returns with
    [gameOver] unchanged. *)
Theorem one_segment_is_too_short_to_collide s g :
  wf s -> nTail s <= 1 ->
  exists s' g', Logic s g = Some (s', g') /\ gameOver s' = gameOver s.
Proof.
  intros Hwf Hn.
  destruct (Logic_total s g Hwf) as (s' & g' & HL); [zlia|].
  exists s', g'. split; [exact HL|].
  destruct (decide (dir s = STOP)) as [Hd|Hd].
  { rewrite Logic_STOP in HL by exact Hd. injection HL as <- _. reflexivity. }
  destruct (Logic_cases s g Hwf) as (s1 & Hadv & Hcases); [zlia|exact Hd|].
  destruct (advance_spec s Hwf) as (s1' & Hadv' & _ & Hsame & Hhead & Hpos & _); [zlia|].
  rewrite Hadv in Hadv'. injection Hadv' as <-.
  destruct Hsame as (Hgo & _ & _ & _ & HnT & _).
  destruct Hcases as [[Hon _]|[(_ & _ & E)|(_ & _ & E)]].
  - exfalso. destruct Hon as (j & Hj & Hx & Hy).
    assert (j = 0) as -> by lia.
    destruct (Hpos ltac:(lia) 0%nat) as [Hx0 Hy0].
    change (Z.to_nat 0) with 0%nat in Hx, Hy. unfold shifted in Hx0, Hy0.
    cbn in Hx0, Hy0. rewrite Hx0 in Hx. rewrite Hy0 in Hy.
    injection Hx as Hx. injection Hy as Hy.
    apply (newHead_elsewhere s Hd). rewrite <- Hhead. congruence.
  - rewrite E in HL. apply PlaceFood_frame in HL as [k ->]. exact Hgo.
  - rewrite E in HL. injection HL as <- _. exact Hgo.
Qed.

(** One segment on (21, 10), head on (22, 10), turned about through Up
    and Left: the tick takes the head onto the cell of the segment, which
    has just left it. *)
Lemma one_segment_is_too_short_to_collide_witness :
  exists s g s' g',
    play seed_east [Pass [chr "d"] true; Pass [] true;
                    Pass [KEY_UP; KEY_LEFT] false] = Some (s, g) /\
    (nTail s, dir s, headX s, headY s) = (1, LEFT, 22, 10) /\
    segment_at s 0 21 10 /\
    Logic s g = Some (s', g') /\
    (gameOver s', headX s', headY s') = (0, 21, 10).
Proof.
  eexists _, _, _, _. split; [vm_compute; reflexivity|].
  split; [reflexivity|]. split; [split; reflexivity|].
  match goal with
  | |- Logic ?s ?g = _ /\ _ =>
      destruct (one_segment_is_too_short_to_collide s g) as (s' & g' & HL & _)
  end.
  - split; reflexivity.
  - vm_compute. discriminate.
  - rewrite HL. vm_compute in HL. injection HL as <- <-.
    split; reflexivity.
Defined.

(** X8. The food stays where it is until it is eaten, and random numbers
    are drawn for nothing else: a pass of the game loop either leaves
    score, tail length, food and generator as they were, or adds 10 to the
    score and 1 to the tail length with the head on the cell the food was
    on. *)
Theorem food_moves_only_when_eaten pending due s g s' g' :
  step (Pass pending due) s g = Some (s', g') ->
  (score s' = score s /\ nTail s' = nTail s /\
   foodX s' = foodX s /\ foodY s' = foodY s /\ g' = g)
  \/
  (score s' = score s + 10 /\ nTail s' = nTail s + 1 /\
   headX s' = foodX s /\ headY s' = foodY s /\ due = true).
Proof.
  intros H. apply step_Pass in H as [_ H].
  destruct (Input_frame pending s) as (Esc & _ & _ & Efx & Efy & _ & _ & En).
  destruct due; [|injection H as -> ->; left; now repeat split].
  rewrite <- Esc, <- En, <- Efx, <- Efy.
  set (s0 := (Input pending s).1) in *. clearbody s0.
  unfold Logic in H. destruct (decide (dir s0 = STOP)).
  { injection H as <- <-. left. now repeat split. }
  destruct (newHead s0) as [nx ny] eqn:Enew.
  destruct (advance s0) as [s1|] eqn:Eadv; cbn [mbind option_bind] in H; [|discriminate].
  apply advance_frame in Eadv as ((_ & Hsc & Hfx & Hfy & HnT & _) & Hhead & _).
  rewrite Enew in Hhead. injection Hhead as Hhx Hhy.
  destruct (selfCollides s1) as [[|]|]; cbn [mbind option_bind] in H; [| |discriminate].
  - injection H as <- <-. left. now repeat split.
  - destruct ((nx =? foodX s0) && (ny =? foodY s0)) eqn:Eeat.
    + apply PlaceFood_frame in H as [k ->]. right.
      apply andb_true_iff in Eeat as [Ex Ey]. apply Z.eqb_eq in Ex, Ey.
      cbn [set_food set_foodX set_foodY set_nTail set_score
           score nTail headX headY].
      repeat split; congruence.
    + injection H as <- <-. left. now repeat split.
Qed.

Lemma food_moves_only_when_eaten_witness :
  exists s g s' g',
    play seed_east [] = Some (s, g) /\
    step (Pass [chr "d"] true) s g = Some (s', g') /\
    (score s', nTail s', headX s', headY s') = (10, 1, foodX s, foodY s) /\
    (foodX s', foodY s') = (30, 15).
Proof.
  eexists _, _, _, _. split; [vm_compute; reflexivity|].
  split; [vm_compute; reflexivity|].
  match goal with
  | |- (score ?s', _, _, _) = (_, _, foodX ?s, _) /\ _ =>
      destruct (food_moves_only_when_eaten
                  [chr "d"] true s (mkRng seed_east 2) s' (mkRng seed_east 4))
        as [(Hsc & _)|(Hsc & Hn & Hx & Hy & _)]
  end.
  - vm_compute. reflexivity.
  - vm_compute in Hsc. discriminate.
  - split; reflexivity.
Defined.

(** ** The arrays and their bounds *)

(** X9. While fewer than 100 segments are counted, a pass of the game
    loop (keys, tick and redraw) accesses [tailX] and [tailY] within their
    bounds only, in every state the program can reach. *)
Theorem a_pass_stays_within_the_arrays pending due s g :
  reachable s g -> gameOver s = 0 -> nTail s < TAIL_CAP ->
  exists s' g' frame, loop_pass pending due s g = Some (s', g', frame).
Proof.
  intros Hr Hgo Hn. pose proof (reachable_wf s g Hr) as Hwf.
  unfold loop_pass.
  destruct (Input_frame pending s) as (_ & _ & _ & _ & _ & Ex & Ey & En).
  assert (wf (Input pending s).1) as Hwf0 by (destruct Hwf; split; congruence).
  destruct due; [|cbn [mbind option_bind]; eauto].
  destruct (Logic_total (Input pending s).1 g Hwf0) as (s' & g' & HL); [lia|].
  rewrite HL. cbn [mbind option_bind fst snd].
  pose proof (Logic_frame _ _ _ _ HL) as (_ & Lx & Ly & _ & Hgrow).
  destruct (Draw_total s') as [frame ->].
  - destruct Hwf0. split; congruence.
  - lia.
  - cbn [mbind option_bind]. eauto.
Qed.

Lemma a_pass_stays_within_the_arrays_witness :
  exists s g,
    before_crash = Some (s, g) /\
    exists s' g' frame,
      loop_pass [KEY_DOWN] true s g = Some (s', g', frame) /\
      length frame = 933%nat.
Proof.
  eexists _, _. split; [vm_compute; reflexivity|].
  match goal with
  | |- exists s' g' frame, loop_pass ?p ?d ?s ?g = _ /\ _ =>
      destruct (a_pass_stays_within_the_arrays p d s g)
        as (s' & g' & frame & H)
  end.
  - apply (play_reachable seed_trap
             [Pass [chr "d"] true; Pass [] true; Pass [] true;
              Pass [KEY_UP; KEY_LEFT] false]).
    vm_compute. reflexivity.
  - reflexivity.
  - vm_compute. reflexivity.
  - exists s', g', frame. split; [exact H|].
    vm_compute in H. injection H as _ _ <-. reflexivity.
Defined.

(** Past the last slot the scanning loop reads out of bounds, unless it
    has found the cell before. *)
Lemma tail_scan_overrun n i tx ty x y :
  length tx = Z.to_nat TAIL_CAP -> length ty = Z.to_nat TAIL_CAP ->
  0 <= i <= TAIL_CAP -> TAIL_CAP < i + Z.of_nat n ->
  (forall j, i <= j < TAIL_CAP ->
     ~ (tx !! Z.to_nat j = Some x /\ ty !! Z.to_nat j = Some y)) ->
  tail_scan n i tx ty x y = None.
Proof.
  intros Hx Hy. revert i. induction n as [|n IH]; intros i Hi Hn Hfree; [lia|].
  cbn [tail_scan]. destruct (decide (i = TAIL_CAP)) as [->|Hne].
  - unfold slot_is, aget. rewrite in_bounds_false by lia. reflexivity.
  - destruct (slot_is_spec tx ty i x y Hx Hy) as (hit & -> & Hhit); [lia|].
    cbn [mbind option_bind]. destruct hit.
    + exfalso. apply (Hfree i); [lia|]. now apply Hhit.
    + apply IH; [lia|lia|]. intros j Hj. apply Hfree. lia.
Qed.

(** X10. The tick that eats the 101st food reads [tailX[100]]: with 100
    segments counted, a tick that moves onto the food without a collision
    counts a 101st and calls [PlaceFood], whose test of a first sample
    that is off the snake scans the arrays one slot past their end. *)
Theorem the_101st_food_overruns_the_arrays s g s1 :
  wf s -> nTail s = TAIL_CAP -> dir s <> STOP ->
  advance s = Some s1 ->
  ~ on_tail s1 (headX s1) (headY s1) ->
  (headX s1, headY s1) = (foodX s, foodY s) ->
  ~ occupied s1 (sample g 0) ->
  Logic s g = None.
Proof.
  intros Hwf Hn Hd Hadv Hoff Hfood Hfree.
  destruct (Logic_cases s g Hwf) as (s1' & Hadv' & Hcases); [lia|exact Hd|].
  rewrite Hadv in Hadv'. injection Hadv' as <-.
  destruct (advance_spec s Hwf) as (s1' & Hadv' & [Hx Hy] & Hsame & Hhead & _); [lia|].
  rewrite Hadv in Hadv'. injection Hadv' as <-.
  destruct Hsame as (_ & _ & _ & _ & HnT & _).
  destruct Hcases as [[Hon _]|[(_ & _ & ->)|(_ & Hne & _)]];
    [contradiction| |congruence].
  unfold PlaceFood, PlaceFood_attempts.
  replace PlaceFood_fuel with (S (Z.to_nat (WIDTH * HEIGHT))) by reflexivity.
  rewrite PlaceFood_loop_step. cbv zeta.
  replace (0 + 1 >? WIDTH * HEIGHT) with false by reflexivity.
  unfold isPositionOnSnake.
  cbn [set_food set_foodX set_foodY set_nTail set_score
       headX headY foodX foodY tailX tailY nTail].
  destruct ((headX s1 =? (sample g 0).1) && (headY s1 =? (sample g 0).2)) eqn:E.
  { exfalso. apply Hfree. left. apply andb_true_iff in E as [E1 E2].
    apply Z.eqb_eq in E1, E2. now split. }
  rewrite tail_scan_overrun; [reflexivity|exact Hx|exact Hy|zlia|zlia|].
  intros j Hj Hseg. apply Hfree. right. exists j. split; [lia|exact Hseg].
Qed.

(** The game [path_game]: a hundred moves eat a hundred foods and the
    program is still running; the next move eats again, and overruns. *)
Lemma the_101st_food_overruns_the_arrays_witness :
  exists s g,
    play seed_path (path_game 100 ++ [Pass [path_key 100] false]) = Some (s, g) /\
    (nTail s, score s, gameOver s) = (100, 1000, 0) /\
    Logic s g = None /\
    play seed_path (path_game 101) = None.
Proof.
  eexists _, _. split; [vm_compute; reflexivity|].
  split; [reflexivity|]. split; [|vm_compute; reflexivity].
  match goal with
  | |- Logic ?s ?g = None =>
      apply (the_101st_food_overruns_the_arrays s g (default s (advance s)))
  end.
  - split; reflexivity.
  - reflexivity.
  - discriminate.
  - vm_compute. reflexivity.
  - match goal with
    | |- ~ on_tail ?s1 _ _ =>
        destruct (selfCollides_spec s1) as (b & Hb & Hiff);
          [split; reflexivity|vm_compute; discriminate|]
    end.
    vm_compute in Hb. injection Hb as <-.
    intros Hon. apply Hiff in Hon. discriminate.
  - reflexivity.
  - match goal with
    | |- ~ occupied ?s1 ?p =>
        destruct (isPositionOnSnake_spec s1 p.1 p.2) as (b & Hb & Hiff);
          [split; reflexivity|vm_compute; discriminate|]
    end.
    vm_compute in Hb. injection Hb as <-.
    intros Hocc. apply Hiff in Hocc. discriminate.
Defined.

(** ** The pace of the game *)

Lemma game_loop_pace passes last_update s g frames s' g' frames' last' t0 :
  Z.of_nat (length frames) * GAME_SPEED <= elapsed_time last_update t0 + GAME_SPEED ->
  game_loop passes last_update s g frames = Finished (s', g', frames', last') ->
  Z.of_nat (length frames') * GAME_SPEED <= elapsed_time last' t0 + GAME_SPEED.
Proof.
  revert last_update s g frames.
  induction passes as [|[pending current_time] rest IH];
    intros last_update s g frames Hinv H; cbn [game_loop] in H;
    destruct (gameOver s =? 0); try discriminate;
    try (injection H as <- <- <- <-; exact Hinv).
  cbv zeta in H.
  destruct (elapsed_time current_time last_update >=? GAME_SPEED) eqn:Edue.
  - destruct (Logic _ g) as [[s2 g2]|]; [|discriminate].
    destruct (Draw s2) as [frame|]; [|discriminate].
    apply IH in H; [exact H|].
    rewrite length_app. cbn [length].
    unfold elapsed_time in *. lia.
  - apply IH in H; [exact H|exact Hinv].
Qed.

(** X11. The game never runs faster than one tick in [GAME_SPEED]
    microseconds: when the game loop of a playthrough ends, the number of
    frames it has drawn, times [GAME_SPEED], is at most the time from the
    start of the playthrough to the last tick, whatever the keys and
    however often the loop has spun. *)
Theorem no_more_than_one_tick_per_interval passes t0 s g s' g' frames last_update :
  game_loop passes t0 s g [DrawBoard] = Finished (s', g', frames, last_update) ->
  exists ticks : list (list call),
    frames = DrawBoard :: ticks /\
    Z.of_nat (length ticks) * GAME_SPEED <= elapsed_time last_update t0.
Proof.
  intros H.
  assert (forall passes last s g frames r,
            game_loop passes last s g frames = Finished r ->
            exists more, r.1.2 = frames ++ more) as Hgrow.
  { clear. induction passes as [|[pending current_time] rest IH];
      intros last s g frames r H; cbn [game_loop] in H;
      destruct (gameOver s =? 0); try discriminate;
      try (injection H as <-; exists []; cbn [fst snd]; now rewrite app_nil_r).
    cbv zeta in H. destruct (_ >=? _).
    - destruct (Logic _ g) as [[s2 g2]|]; [|discriminate].
      destruct (Draw s2) as [frame|]; [|discriminate].
      apply IH in H as [more ->]. exists (frame :: more).
      now rewrite <- app_assoc.
    - apply IH in H. exact H. }
  destruct (Hgrow _ _ _ _ _ _ H) as [ticks Hfr]. cbn [fst snd app] in Hfr.
  exists ticks. split; [exact Hfr|].
  apply (game_loop_pace _ _ _ _ _ _ _ _ _ t0) in H.
  - rewrite Hfr in H. cbn [length] in H. lia.
  - cbn [length]. unfold elapsed_time, GAME_SPEED. lia.
Qed.

(** A loop that spins every 30 ms: ticks at 120 ms and 240 ms only; [q]
    comes at 330 ms. *)
Lemma no_more_than_one_tick_per_interval_witness :
  exists s g,
    play seed_east [] = Some (s, g) /\
    exists s' g' frames last_update,
      game_loop
        (map (fun n => ([chr "d"], mkTimeval 5 (30000 * n))) (seqZ 1 10)
         ++ [([chr "q"], mkTimeval 5 330000)])
        (mkTimeval 5 0) s g [DrawBoard]
        = Finished (s', g', frames, last_update) /\
      length frames = 3%nat /\ last_update = mkTimeval 5 240000.
Proof.
  eexists _, _. split; [vm_compute; reflexivity|].
  match goal with
  | |- exists s' g' frames last, game_loop ?ps ?t0 ?s ?g ?fs = _ /\ _ =>
      destruct (game_loop ps t0 s g fs) as [[[[s' g'] frames] last]| |] eqn:E;
        [|vm_compute in E; discriminate..];
        exists s', g', frames, last; split; [reflexivity|];
        destruct (no_more_than_one_tick_per_interval ps t0 s g s' g' frames last E)
          as (ticks & -> & Hpace)
  end.
  vm_compute in E. injection E as _ _ Hticks <-.
  split; [|reflexivity].
  apply (f_equal (@length _)) in Hticks. cbn [length] in Hticks |- *. lia.
Defined.

(** ** main *)





(** ** What is shown, and where *)

Lemma score_line_fits n :
  0 <= n <= 1010 ->
  fits_window (mvprintw (HEIGHT + 3) 0 "Score: %d   " [n]).
Proof.
  intros Hn.
  assert (Forall fits_window
            ((fun n => mvprintw (HEIGHT + 3) 0 "Score: %d   " [n]) <$> seqZ 0 1011))
    as Hall.
  { apply (bool_decide_unpack _). vm_compute. exact I. }
  rewrite Forall_fmap, Forall_forall in Hall.
  apply (Hall n). apply elem_of_seqZ. lia.
Qed.

Lemma one_char_fits r c t :
  String.length t = 1%nat ->
  1 <= r <= HEIGHT -> 1 <= c <= WIDTH -> fits_window (mvprintw r c t []).
Proof.
  intros Ht Hr Hc. unfold fits_window, render. cbn [row col fmt args].
  destruct t as [|a [|b t]]; try discriminate.
  replace (String.length (format (String a "") [])) with 1%nat
    by (destruct a as [[] [] [] [] [] [] [] []]; reflexivity).
  zlia.
Qed.

(** X13. Everything the program shows lies inside the window [main]
    insists on, [HEIGHT + 6] rows by [WIDTH + 2] columns: the board drawn
    by [DrawBoard], every frame of [Draw] in a reachable state whose food
    is on the board, and the game-over texts.  The head and the segments
    are kept inside by the bounds checks of [Draw], the score line by the
    score being at most 1010. *)
Theorem everything_shown_fits_the_window s g frame :
  reachable s g -> food_on_board s -> Draw s = Some frame ->
  Forall fits_window (DrawBoard ++ frame ++ GameOverScreen).
Proof.
  intros Hr Hfood HD.
  pose proof (reachable_wf s g Hr) as [Hx Hy].
  destruct (reachable_small s g Hr) as [(_ & Hn & _) Hsc].
  apply Forall_app. split; [apply (bool_decide_unpack _); vm_compute; exact I|].
  apply Forall_app. split; [|apply (bool_decide_unpack _); vm_compute; exact I].
  unfold Draw in HD.
  destruct (draw_tail _ _ _ _) as [tl|] eqn:Et; cbn [mbind option_bind] in HD;
    [|discriminate].
  apply (inj Some) in HD. subst frame.
  apply Forall_app. split; [apply (bool_decide_unpack _); vm_compute; exact I|].
  apply Forall_app. split.
  { apply Forall_singleton. destruct Hfood. now apply one_char_fits. }
  apply Forall_app. split.
  { destruct (decide (nTail s <= TAIL_CAP)) as [Hcap|Hcap].
    - destruct (draw_tail_spec (Z.to_nat (nTail s)) 0 (tailX s) (tailY s))
        as (tl' & Et' & Hmem); [exact Hx|exact Hy|lia|zlia|].
      rewrite Et in Et'. injection Et' as <-.
      apply Forall_forall. intros k Hk.
      apply Hmem in Hk as (j & vx & vy & _ & _ & _ & [Hvx Hvy] & ->).
      now apply one_char_fits.
    - exfalso. clear - Et Hcap Hx Hy.
      assert (forall n i, 0 <= i <= TAIL_CAP -> TAIL_CAP < i + Z.of_nat n ->
                draw_tail n i (tailX s) (tailY s) = None) as Hover.
      { induction n as [|n IH]; intros i Hi Hlt; [lia|].
        cbn [draw_tail]. destruct (decide (i = TAIL_CAP)) as [->|Hne].
        - unfold slot_on_board, aget. rewrite in_bounds_false by lia. reflexivity.
        - rewrite (IH (i + 1)) by lia.
          destruct (slot_on_board _ _ i) as [[|]|]; cbn [mbind option_bind];
            [|reflexivity..].
          destruct (aget (tailY s) i); cbn [mbind option_bind]; [|reflexivity].
          destruct (aget (tailX s) i); reflexivity. }
      rewrite Hover in Et by zlia. discriminate. }
  apply Forall_app. split.
  { destruct (_ && _) eqn:E; [|constructor].
    apply Forall_singleton. apply one_char_fits; [reflexivity|lia|lia]. }
  apply Forall_singleton. apply score_line_fits. zlia.
Qed.

Lemma everything_shown_fits_the_window_witness :
  exists s g frame,
    before_crash = Some (s, g) /\ Draw s = Some frame /\
    Forall fits_window (DrawBoard ++ frame ++ GameOverScreen).
Proof.
  eexists _, _, _. split; [vm_compute; reflexivity|].
  split; [vm_compute; reflexivity|].
  eapply (everything_shown_fits_the_window _ (mkRng seed_trap 1606)).
  - apply (play_reachable seed_trap
             [Pass [chr "d"] true; Pass [] true; Pass [] true;
              Pass [KEY_UP; KEY_LEFT] false]).
    vm_compute. reflexivity.
  - vm_compute. split; split; discriminate.
  - vm_compute. reflexivity.
Defined.

Lemma shown_app l1 l2 r c :
  shown (l1 ++ l2) r c =
  match shown l2 r c with Some ch => Some ch | None => shown l1 r c end.
Proof.
  induction l1 as [|k l1 IH]; cbn [app shown].
  - destruct (shown l2 r c); reflexivity.
  - rewrite IH. destruct (shown l2 r c); reflexivity.
Qed.

Lemma render_one a r0 c0 :
  render (mvprintw r0 c0 (String a "") []) = String a "".
Proof. destruct a as [[] [] [] [] [] [] [] []]; reflexivity. Qed.

(** A call that prints one character shows it on its own cell and on no
    other. *)
Lemma shown_one a r0 c0 r c :
  shown [mvprintw r0 c0 (String a "") []] r c =
  if decide (r0 = r /\ c0 = c) then Some a else None.
Proof.
  cbn [shown]. unfold covers, char_at. rewrite render_one.
  cbn [row col]. change (Z.of_nat (String.length (String a ""))) with 1.
  destruct (decide (r0 = r /\ c0 = c)) as [[-> ->]|Hne].
  - rewrite Z.eqb_refl, Z.leb_refl. replace (c <? c + 1) with true by lia.
    rewrite Z.sub_diag. reflexivity.
  - destruct (Z.eqb_spec r0 r); [|reflexivity].
    destruct (Z.leb_spec c0 c); [|reflexivity].
    destruct (Z.ltb_spec c (c0 + 1)); [|reflexivity]. exfalso. lia.
Qed.

Lemma shown_cons k l r c :
  shown (k :: l) r c =
  match shown l r c with Some ch => Some ch | None => shown [k] r c end.
Proof. reflexivity. Qed.

Lemma shown_none l r c :
  (forall k, k ∈ l -> shown [k] r c = None) -> shown l r c = None.
Proof.
  induction l as [|k l IH]; intros H; [reflexivity|].
  rewrite shown_cons, IH.
  - apply H. left.
  - intros k' Hk'. apply H. now right.
Qed.

Lemma shown_uniform l r c ch :
  (forall k, k ∈ l -> shown [k] r c = Some ch \/ shown [k] r c = None) ->
  shown l r c = Some ch \/ shown l r c = None.
Proof.
  induction l as [|k l IH]; intros H; [now right|].
  rewrite shown_cons. destruct IH as [->| ->].
  - intros k' Hk'. apply H. now right.
  - now left.
  - apply H. left.
Qed.

(** When every call that writes on a cell writes the same character, and
    one does, the cell shows that character. *)
Lemma shown_some l r c ch :
  (exists k, k ∈ l /\ shown [k] r c = Some ch) ->
  (forall k, k ∈ l -> shown [k] r c = Some ch \/ shown [k] r c = None) ->
  shown l r c = Some ch.
Proof.
  induction l as [|k l IH]; intros (k0 & Hin & Hk0) Hall; [inversion Hin|].
  rewrite shown_cons.
  assert (forall k', k' ∈ l ->
            shown [k'] r c = Some ch \/ shown [k'] r c = None) as Hl
    by (intros k' Hk'; apply Hall; now right).
  destruct (shown_uniform l r c ch Hl) as [->|El]; [reflexivity|].
  rewrite El. apply elem_of_cons in Hin as [->|Hin]; [exact Hk0|].
  rewrite IH in El; [discriminate|eauto|exact Hl].
Qed.

(** [ClearGameArea] leaves a blank on every cell of the board and a [#] on
    every cell of the frame around it. *)
Lemma clear_shows_blank x y :
  1 <= x <= WIDTH -> 1 <= y <= HEIGHT ->
  shown ClearGameArea y x = Some " "%char.
Proof.
  intros Hx Hy.
  assert (Forall (fun y => Forall (fun x => shown ClearGameArea y x = Some " "%char)
                                  (seqZ 1 WIDTH)) (seqZ 1 HEIGHT)) as Hall.
  { apply (bool_decide_unpack _). vm_compute. exact I. }
  rewrite Forall_forall in Hall. specialize (Hall y).
  rewrite Forall_forall in Hall. apply Hall; apply elem_of_seqZ; lia.
Qed.

Lemma clear_shows_border x y :
  on_border x y -> shown ClearGameArea y x = Some "#"%char.
Proof.
  intros Hb.
  assert (Forall (fun y => Forall (fun x => on_border x y ->
                                     shown ClearGameArea y x = Some "#"%char)
                                  (seqZ 0 (WIDTH + 2))) (seqZ 0 (HEIGHT + 2))) as Hall.
  { apply (bool_decide_unpack _). vm_compute. exact I. }
  rewrite Forall_forall in Hall. specialize (Hall y).
  rewrite Forall_forall in Hall.
  apply Hall; [apply elem_of_seqZ|apply elem_of_seqZ|exact Hb];
    unfold on_border in Hb; zlia.
Qed.

Lemma score_line_elsewhere n y x :
  y <> HEIGHT + 3 ->
  shown [mvprintw (HEIGHT + 3) 0 "Score: %d   " [n]] y x = None.
Proof.
  intros Hy. cbn [shown]. unfold covers. cbn [row].
  destruct (Z.eqb_spec (HEIGHT + 3) y); [congruence|reflexivity].
Qed.

(** X14. What a frame of [Draw] shows.  On a cell of the board: [O] if
    the head is there; otherwise [o] if a counted tail segment is there;
    otherwise [F] if the food is there; otherwise a blank.  On a cell of
    the frame around the board: [#], unless the food lies there. *)
Theorem what_a_frame_shows s frame x y :
  wf s -> nTail s <= TAIL_CAP -> Draw s = Some frame ->
  (1 <= x <= WIDTH -> 1 <= y <= HEIGHT ->
   ((headX s = x /\ headY s = y) -> shown frame y x = Some "O"%char) /\
   (~ (headX s = x /\ headY s = y) -> on_tail s x y ->
    shown frame y x = Some "o"%char) /\
   (~ (headX s = x /\ headY s = y) -> ~ on_tail s x y ->
    (foodX s = x /\ foodY s = y) -> shown frame y x = Some "F"%char) /\
   (~ (headX s = x /\ headY s = y) -> ~ on_tail s x y ->
    ~ (foodX s = x /\ foodY s = y) -> shown frame y x = Some " "%char)) /\
  (on_border x y -> ~ (foodX s = x /\ foodY s = y) ->
   shown frame y x = Some "#"%char).
Proof.
  intros [Hx Hy] Hn HD. unfold Draw in HD.
  destruct (draw_tail_spec (Z.to_nat (nTail s)) 0 (tailX s) (tailY s))
    as (tl & Et & Hmem); [exact Hx|exact Hy|lia|zlia|].
  rewrite Et in HD. cbn [mbind option_bind] in HD.
  apply (inj Some) in HD. subst frame.
  set (hd := if (headX s >=? 1) && (headX s <=? WIDTH)
                && (headY s >=? 1) && (headY s <=? HEIGHT)
             then [mvprintw (headY s) (headX s) "O" []] else []).
  (* the head *)
  assert (((headX s = x /\ headY s = y) /\ 1 <= x <= WIDTH /\ 1 <= y <= HEIGHT ->
           shown hd y x = Some "O"%char) /\
          (~ ((headX s = x /\ headY s = y) /\ 1 <= x <= WIDTH /\ 1 <= y <= HEIGHT) ->
           shown hd y x = None)) as [Hhd1 Hhd0].
  { subst hd. destruct (_ && _) eqn:E.
    - rewrite shown_one. split.
      + intros ([<- <-] & _). rewrite decide_True; [reflexivity|now split].
      + intros Hno. rewrite decide_False; [reflexivity|].
        intros [<- <-]. apply Hno. lia.
    - split; [|reflexivity]. intros ([<- <-] & Hd). exfalso. lia. }
  (* the tail *)
  assert (forall k, k ∈ tl ->
            shown [k] y x = Some "o"%char \/ shown [k] y x = None) as Hone.
  { intros k Hk. apply Hmem in Hk as (j & vx & vy & _ & _ & _ & _ & ->).
    rewrite shown_one. destruct (decide (vy = y /\ vx = x)); [now left|now right]. }
  assert (on_tail s x y -> 1 <= x <= WIDTH -> 1 <= y <= HEIGHT ->
          shown tl y x = Some "o"%char) as Hon.
  { intros (j & Hj & Hjx & Hjy) Hbx Hby. apply shown_some; [|exact Hone].
    exists (mvprintw y x "o" []). split.
    - apply Hmem. exists j, x, y. split; [lia|]. now repeat split.
    - rewrite shown_one. rewrite decide_True; [reflexivity|now split]. }
  assert (~ (on_tail s x y /\ 1 <= x <= WIDTH /\ 1 <= y <= HEIGHT) ->
          shown tl y x = None) as Hoff.
  { intros Hno. apply shown_none. intros k Hk.
    apply Hmem in Hk as (j & vx & vy & Hj & Hjx & Hjy & Hb & ->).
    rewrite shown_one. rewrite decide_False; [reflexivity|].
    intros [-> ->]. apply Hno. split; [|exact Hb].
    exists j. split; [lia|]. now split. }
  (* the food *)
  assert (((foodX s = x /\ foodY s = y) ->
           shown [mvprintw (foodY s) (foodX s) "F" []] y x = Some "F"%char) /\
          (~ (foodX s = x /\ foodY s = y) ->
           shown [mvprintw (foodY s) (foodX s) "F" []] y x = None)) as [Hfd1 Hfd0].
  { rewrite shown_one. split.
    - intros [<- <-]. rewrite decide_True; [reflexivity|now split].
    - intros Hno. rewrite decide_False; [reflexivity|]. intros [<- <-]. now apply Hno. }
  assert (forall rest, shown (ClearGameArea
            ++ [mvprintw (foodY s) (foodX s) "F" []] ++ tl ++ hd ++ rest) y x
          = match shown rest y x with Some ch => Some ch | None =>
            match shown hd y x with Some ch => Some ch | None =>
            match shown tl y x with Some ch => Some ch | None =>
            match shown [mvprintw (foodY s) (foodX s) "F" []] y x with
            | Some ch => Some ch
            | None => shown ClearGameArea y x
            end end end end) as Hall.
  { intros rest. rewrite !shown_app.
    destruct (shown rest y x), (shown hd y x), (shown tl y x),
      (shown [mvprintw (foodY s) (foodX s) "F" []] y x); reflexivity. }
  rewrite Hall. clear Hall.
  split.
  - intros Hbx Hby. rewrite score_line_elsewhere by zlia.
    split; [|split; [|split]].
    + intros Hh. rewrite Hhd1 by tauto. reflexivity.
    + intros Hnh Ht. rewrite Hhd0 by tauto. rewrite (Hon Ht Hbx Hby). reflexivity.
    + intros Hnh Hnt Hf. rewrite Hhd0 by tauto. rewrite Hoff by tauto.
      rewrite Hfd1 by exact Hf. reflexivity.
    + intros Hnh Hnt Hnf. rewrite Hhd0 by tauto. rewrite Hoff by tauto.
      rewrite Hfd0 by exact Hnf. now apply clear_shows_blank.
  - intros Hb Hnf. rewrite score_line_elsewhere by (unfold on_border in Hb; zlia).
    rewrite Hhd0 by (unfold on_border in Hb; zlia).
    rewrite Hoff by (unfold on_border in Hb; zlia).
    rewrite Hfd0 by exact Hnf. now apply clear_shows_border.
Qed.

(** The frame of [before_crash]: head on (23, 10), segments on (22, 10)
    and (21, 10), the food under the first segment. *)
Lemma what_a_frame_shows_witness :
  exists s g frame,
    before_crash = Some (s, g) /\ Draw s = Some frame /\
    shown frame 10 23 = Some "O"%char /\
    shown frame 10 22 = Some "o"%char /\
    shown frame 10 21 = Some "o"%char /\
    shown frame 10 20 = Some " "%char /\
    shown frame 0 20 = Some "#"%char.
Proof.
  eexists _, _, _. split; [vm_compute; reflexivity|].
  split; [vm_compute; reflexivity|].
  match goal with
  | |- shown ?frame _ _ = _ /\ _ =>
      pose proof (fun x y =>
        what_a_frame_shows
          (default initial_state (fst <$> before_crash)) frame x y
          ltac:(split; reflexivity) ltac:(vm_compute; discriminate)
          ltac:(vm_compute; reflexivity)) as H
  end.
  split; [|split; [|split; [|split]]].
  - apply (H 23 10); [zlia|zlia|]. split; reflexivity.
  - apply (H 22 10); [zlia|zlia| |].
    + vm_compute. intros [E _]. discriminate.
    + exists 0. split; [vm_compute; split; [discriminate|reflexivity]|].
      split; reflexivity.
  - apply (H 21 10); [zlia|zlia| |].
    + vm_compute. intros [E _]. discriminate.
    + exists 1. split; [vm_compute; split; [discriminate|reflexivity]|].
      split; reflexivity.
  - vm_compute. reflexivity.
  - apply (H 20 0).
    + left. zlia.
    + vm_compute. intros [E _]. discriminate.
Defined.

(** ** The prompt after a game *)

(** The keys that answer the prompt. *)
Lemma prompt_choice_skips junk typed :
  Forall (fun k => k <> chr "r" /\ k <> chr "R" /\ k <> chr "q" /\ k <> chr "Q") junk ->
  prompt_choice (junk ++ typed) = prompt_choice typed.
Proof.
  induction 1 as [|k junk (H1 & H2 & H3 & H4) _ IH]; [reflexivity|].
  cbn [app prompt_choice].
  apply Z.eqb_neq in H1, H2, H3, H4. rewrite H1, H2, H3, H4. exact IH.
Qed.

(** X18. At the prompt after a game every key other than [r], [R], [q]
    and [Q] is ignored: the choice is the first of these four that is
    typed, and the program goes on waiting as long as none is. *)
Theorem the_prompt_waits_for_r_or_q junk typed :
  Forall (fun k => k <> chr "r" /\ k <> chr "R" /\ k <> chr "q" /\ k <> chr "Q") junk ->
  prompt_choice junk = None /\
  (forall k, k = chr "r" \/ k = chr "R" \/ k = chr "q" \/ k = chr "Q" ->
     prompt_choice (junk ++ k :: typed) = Some k).
Proof.
  intros Hj. split.
  - rewrite <- (app_nil_r junk). rewrite prompt_choice_skips by exact Hj. reflexivity.
  - intros k Hk. rewrite prompt_choice_skips by exact Hj. cbn [prompt_choice].
    destruct Hk as [-> |[-> |[-> | ->]]]; reflexivity.
Qed.

Lemma the_prompt_waits_for_r_or_q_witness :
  prompt_choice [chr "x"; KEY_UP; 32] = None /\
  prompt_choice ([chr "x"; KEY_UP; 32] ++ chr "R" :: [chr "q"]) = Some (chr "R").
Proof.
  destruct (the_prompt_waits_for_r_or_q [chr "x"; KEY_UP; 32] [chr "q"]) as [H0 H1].
  - repeat constructor; discriminate.
  - split; [exact H0|]. apply H1. right. left. reflexivity.
Defined.

(** ** Polling *)

(** X19. How the pending keys are split over polls does not matter to
    the globals: polling some keys and then the rest leaves them as one
    poll of all the keys does. *)
Theorem polling_in_two_goes_is_polling_once p1 p2 s :
  Forall (fun k => k <> ERR) p1 ->
  (Input (p1 ++ p2) s).1 = (Input p2 (Input p1 s).1).1.
Proof.
  intros Hp. revert s. induction Hp as [|k p1 Hk _ IH]; intros s; [reflexivity|].
  cbn [app]. rewrite !Input_cons by exact Hk. apply IH.
Qed.

Lemma polling_in_two_goes_is_polling_once_witness :
  dir (Input ([KEY_RIGHT; KEY_UP] ++ [KEY_LEFT; chr "z"]) initial_state).1 = LEFT /\
  dir (Input [KEY_LEFT; chr "z"] (Input [KEY_RIGHT; KEY_UP] initial_state).1).1 = LEFT.
Proof.
  rewrite (polling_in_two_goes_is_polling_once [KEY_RIGHT; KEY_UP]).
  - split; reflexivity.
  - repeat constructor; discriminate.
Defined.

(** ** Witnesses for properties proved above *)

Lemma first_playthrough_head_off_tail_witness :
  exists s g,
    play seed_east [Pass [chr "d"] true] = Some (s, g) /\
    nTail s = 1 /\ ~ on_tail s (headX s) (headY s).
Proof.
  eexists _, _. split; [vm_compute; reflexivity|]. split; [reflexivity|].
  destruct (Setup seed_east initial_state) as [[s0 g0]|] eqn:E0;
    [|vm_compute in E0; discriminate].
  match goal with
  | |- ~ on_tail ?s _ _ =>
      apply (first_playthrough_head_off_tail s (mkRng seed_east 4));
        [apply (reach1_pass [chr "d"] true s0 g0);
           [apply (reach1_Setup seed_east); exact E0|]
        |reflexivity]
  end.
  vm_compute in E0. injection E0 as <- <-. vm_compute. reflexivity.
Defined.

Lemma stale_slot_hidden_from_collision_witness :
  exists sa sb g,
    play seed_ghost [Pass [KEY_LEFT] false] = Some (sa, g) /\
    play seed_east (first_game ++ [Restart seed_ghost; Pass [KEY_LEFT] false])
      = Some (sb, g) /\
    tailX sa <> tailX sb /\
    exists sa' ga' sb' gb',
      Logic sa g = Some (sa', ga') /\ Logic sb g = Some (sb', gb') /\
      gameOver sb' = gameOver sa' /\ score sb' = score sa' /\
      nTail sb' = nTail sa' /\ headX sb' = headX sa' /\ headY sb' = headY sa'.
Proof.
  eexists _, _, _. split; [vm_compute; reflexivity|].
  split; [vm_compute; reflexivity|]. split; [discriminate|].
  match goal with
  | |- exists sa' ga' sb' gb', Logic ?sa ?g = _ /\ Logic ?sb _ = _ /\ _ =>
      destruct (stale_slot_hidden_from_collision sa sb g)
        as (sa' & ga' & sb' & gb' & Ha & Hb & H1 & H2 & H3 & H4 & H5 & _)
  end.
  - split; reflexivity.
  - split; reflexivity.
  - vm_compute. reflexivity.
  - reflexivity.
  - intros j Hj. cbn in Hj. lia.
  - intros j Hj. cbn in Hj. lia.
  - exists sa', ga', sb', gb'. now repeat split.
Defined.

Lemma reachable_int_range_witness :
  exists s g,
    before_crash = Some (s, g) /\ - 1010 <= score s <= 1010.
Proof.
  eexists _, _. split; [vm_compute; reflexivity|].
  eapply (reachable_int_range _ (mkRng seed_trap 1606)).
  apply (play_reachable seed_trap
           [Pass [chr "d"] true; Pass [] true; Pass [] true;
            Pass [KEY_UP; KEY_LEFT] false]).
  vm_compute. reflexivity.
Defined.
